(** * Temperature-to-sound converter: frequency mapping, retune policy and
      phase-accumulator tone generator

    Shallow embedding of the two firmware variants of the repository:
    - [Sketch]   : [main.ino], the Arduino-core variant (software sine
                   oscillator driven from [loop]);
    - [Firmware] : [main.c], the register-level variant (TIM2-triggered DAC).

    Machine integers are integers of [Z] with the wrap-around of their width
    written out; C [double] values are IEEE 754 binary64 numbers, taken from
    the specification of the Standard Library ([SpecFloat], precision 53,
    [emax] 1024). *)

From Stdlib Require Import ZArith Lia List Bool Wf_Z.
From Stdlib Require Import Floats.SpecFloat.
Import ListNotations.

Open Scope Z_scope.

(** * Part I: the embedding *)

(** ** Machine integers *)

Module Machine.

(** Value of an unsigned [w]-bit object after a conversion or an arithmetic
    operation on it. *)
Definition wrap (w x : Z) : Z := x mod 2 ^ w.

Definition u16 (x : Z) : Z := wrap 16 x.
Definition u32 (x : Z) : Z := wrap 32 x.

(** Two's complement reading of the low [w] bits: the conversion to a signed
    [w]-bit type as the ARM compilers define it. *)
Definition signed (w x : Z) : Z :=
  let r := wrap w x in
  if r <? 2 ^ (w - 1) then r else r - 2 ^ w.

Definition i16 (x : Z) : Z := signed 16 x.
Definition i32 (x : Z) : Z := signed 32 x.

Definition is_u16 (x : Z) : Prop := 0 <= x < 65536.
Definition is_u32 (x : Z) : Prop := 0 <= x < 4294967296.

End Machine.

Import Machine.

(** ** Frequency mapping (both variants) *)

Definition MIN_FREQ : Z := 200.
Definition MAX_FREQ : Z := 2000.

(** [uint32_t map_frequency(uint16_t adc_value)] of [main.ino]: the product
    and the sum are [uint32_t] operations, the two clamps follow. *)
Definition map_frequency (adc_value : Z) : Z :=
  let frequency :=
    u32 (MIN_FREQ + u32 (u32 adc_value * (MAX_FREQ - MIN_FREQ)) / 4095) in
  let frequency := if frequency <? MIN_FREQ then MIN_FREQ else frequency in
  let frequency := if frequency >? MAX_FREQ then MAX_FREQ else frequency in
  frequency.

(** [uint32_t Temperature_To_Frequency(uint16_t adc_value)] of [main.c]: the
    same computation with the constants written as literals. *)
Definition Temperature_To_Frequency (adc_value : Z) : Z :=
  let frequency := u32 (200 + u32 (u32 adc_value * 1800) / 4095) in
  let frequency := if frequency <? 200 then 200 else frequency in
  let frequency := if frequency >? 2000 then 2000 else frequency in
  frequency.

(** The unclamped linear interpolation, in unbounded integer arithmetic. *)
Definition linear (sample : Z) : Z := 200 + (sample * 1800) / 4095.

(** [abs((int32_t)new_frequency - (int32_t)current_frequency) > 5], the
    magnitude test shared by the two main loops.  For operands below 2^31
    (every frequency the program stores) the casts keep the value and the
    difference fits an [int32_t]. *)
Definition changed_significantly (new_frequency current_frequency : Z) : bool :=
  Z.abs (i32 new_frequency - i32 current_frequency) >? 5.

(** ** The register-level variant, [main.c] *)

Module Firmware.

(** What [main] owns: the global [current_frequency], the auto-reload
    register of TIM2, and (ghost) the arguments of every [TIM2_Init] call so
    far, most recent first. *)
Record registers := {
  current_frequency : Z;
  TIM2_ARR : Z;
  timer_calls : list Z
}.

(** [return ADC1->DR;] narrowed to the [uint16_t] return type. *)
Definition ADC_Read_Temperature (ADC1_DR : Z) : Z := u16 ADC1_DR.

(** [TIM2_Init]: [period = (timer_clock / frequency) - 1] is stored in
    [TIM2->ARR]; the integer division traps or is undefined for a zero
    divisor, which is [None] here. *)
Definition TIM2_Init (frequency : Z) : option Z :=
  let timer_clock := 84000000 in
  if frequency =? 0 then None
  else Some (u32 (u32 (timer_clock / frequency) - 1)).

(** [main] up to the loop: [TIM2_Init(440)] with [current_frequency = 440]. *)
Definition startup : option registers :=
  match TIM2_Init 440 with
  | Some period =>
      Some {| current_frequency := 440; TIM2_ARR := period; timer_calls := [440] |}
  | None => None
  end.

(** One iteration of [while (1)], given the content of [ADC1->DR]. *)
Definition iteration (ADC1_DR : Z) (st : registers) : option registers :=
  let adc_value := ADC_Read_Temperature ADC1_DR in
  let new_frequency := Temperature_To_Frequency adc_value in
  if changed_significantly new_frequency (current_frequency st) then
    match TIM2_Init new_frequency with
    | Some period =>
        Some {| current_frequency := new_frequency;
                TIM2_ARR := period;
                timer_calls := new_frequency :: timer_calls st |}
    | None => None
    end
  else Some st.

Fixpoint iterations (readings : list Z) (st : registers) : option registers :=
  match readings with
  | [] => Some st
  | r :: rest =>
      match iteration r st with
      | Some st' => iterations rest st'
      | None => None
      end
  end.

(** [main] run over a finite prefix of ADC readings. *)
Definition main (readings : list Z) : option registers :=
  match startup with
  | Some st => iterations readings st
  | None => None
  end.

(** What holds of the registers whenever [main] is in its loop: the
    invariant behind the safety of the division in [TIM2_Init]. *)
Definition timer_safe (st : registers) : Prop :=
  200 <= current_frequency st <= 2000
  /\ Forall (fun f => f = 440 \/ exists adc, is_u16 adc /\ f = Temperature_To_Frequency adc)
       (timer_calls st)
  /\ Forall (fun f => 200 <= f <= 2000) (timer_calls st).

End Firmware.

(** ** IEEE 754 binary64, the [double] of the Cortex-M targets *)

Module IEEE.

Definition prec : Z := 53.
Definition emax : Z := 1024.

Definition double : Type := spec_float.

Definition add : double -> double -> double := SFadd prec emax.
Definition sub : double -> double -> double := SFsub prec emax.
Definition mul : double -> double -> double := SFmul prec emax.
Definition div : double -> double -> double := SFdiv prec emax.

(** [x >= y] and [x < y] of C: false as soon as an operand is a NaN. *)
Definition ge (x y : double) : bool := SFleb y x.
Definition lt (x y : double) : bool := SFltb x y.

(** Conversion of an integer to [double] (exact below 2^53). *)
Definition of_int (z : Z) : double := binary_normalize prec emax z 0 false.

Definition zero : double := S754_zero false.

(** Integer part of a finite number, rounded toward zero. *)
Definition trunc (x : double) : option Z :=
  match x with
  | S754_zero _ => Some 0
  | S754_finite s m e =>
      Some (cond_Zopp s
              (match e with
               | Zneg p => Zpos m / 2 ^ Zpos p
               | _ => Zpos m * 2 ^ e
               end))
  | _ => None
  end.

(** The number as a multiple of 2^-1074, the spacing of the smallest
    binary64 numbers: an integer for every finite number. *)
Definition ulps (x : double) : Z :=
  match x with
  | S754_finite s m e => cond_Zopp s (Zpos m * 2 ^ (e + 1074))
  | _ => 0
  end.

(** Positive normal numbers: a full 53-bit significand. *)
Definition normal (x : double) : Prop :=
  match x with
  | S754_finite false m e => Zpos (digits2_pos m) = 53 /\ -1074 <= e <= 971
  | _ => False
  end.

(** Exponent of the unit in the last place. *)
Definition expo (x : double) : Z :=
  match x with
  | S754_finite _ _ e => e
  | _ => 0
  end.

End IEEE.

(** ** The Arduino-core variant, [main.ino] *)

Module Sketch.

Import IEEE.

Definition UPDATE_INTERVAL : Z := 100.

(** Modelled from the spec: the macro [PI] comes from [Arduino.h], which is
    not part of the sources; the spec fixes its meaning (the phase wraps at
    2 pi), and the constant below is the binary64 number nearest to pi,
    0x1.921FB54442D18p+1. *)
Definition PI : double := S754_finite false 7074237752028440 (-51).

(** [2.0 * PI], folded. *)
Definition TWO_PI : double := Eval vm_compute in mul (of_int 2) PI.

(** The condition of the [if] of [loop]: the magnitude test, or more than
    [UPDATE_INTERVAL] milliseconds on the [uint32_t] clock since
    [last_update]. *)
Definition retune_condition
    (new_frequency current_frequency now last_update : Z) : bool :=
  changed_significantly new_frequency current_frequency
  || (u32 (now - last_update) >? UPDATE_INTERVAL).

(** The function-local statics of [generate_tone]. *)
Record oscillator := {
  phase : double;
  last_time : Z
}.

Definition power_on : oscillator := {| phase := zero; last_time := 0 |}.

(** [while (phase >= 2.0 * PI) phase -= 2.0 * PI;] with a bound on the
    number of iterations; [None] when the bound is exhausted. *)
Fixpoint wrap_phase (fuel : nat) (phase : double) : option double :=
  if ge phase TWO_PI then
    match fuel with
    | O => None
    | S fuel' => wrap_phase fuel' (sub phase TWO_PI)
    end
  else Some phase.

(** [2.0 * PI * current_frequency * time_seconds], left to right. *)
Definition phase_increment (current_frequency elapsed : Z) : double :=
  let time_seconds := div (of_int elapsed) (of_int 1000000) in
  mul (mul TWO_PI (of_int current_frequency)) time_seconds.

(** The phase lies in the half-open period: [0 <= x] and [x < 2.0 * PI]
    with the comparisons of C. *)
Definition in_period (x : double) : Prop :=
  ge x zero = true /\ lt x TWO_PI = true.

(** The form in which the oscillator keeps its phase: +0 or a positive
    normal number, below [TWO_PI]. *)
Definition wrapped (x : double) : Prop :=
  (x = zero \/ normal x) /\ lt x TWO_PI = true.

Section Tone.

(** [sin] of the C library: any function on [double]. *)
Variable sin : double -> double.

(** What the conversion of a [double] to [int16_t] yields where C leaves it
    undefined (NaN, infinities, integer part outside the [int16_t] range). *)
Variable int16_of_unrepresentable : double -> Z.

Definition to_int16 (x : double) : Z :=
  match trunc x with
  | Some z =>
      if (-32768 <=? z) && (z <=? 32767) then z
      else i16 (int16_of_unrepresentable x)
  | None => i16 (int16_of_unrepresentable x)
  end.

(** [int16_t sine_value = 2048 + (int16_t)(2047 * sin(phase));] followed by
    the two clamps: the 12-bit sample. *)
Definition sine_value (phase : double) : Z :=
  let raw := i16 (2048 + to_int16 (mul (of_int 2047) (sin phase))) in
  let clamped := if raw <? 0 then 0 else raw in
  let clamped := if clamped >? 4095 then 4095 else clamped in
  clamped.

(** [sine_value >> 4], the argument of [analogWrite]. *)
Definition duty (sample : Z) : Z := Z.shiftr sample 4.

(** [generate_tone] with the global [current_frequency] and the [uint32_t]
    reading [current_time] of [micros()]: the new statics and the duty
    written to [AUDIO_OUT_PIN], if any. *)
Definition generate_tone (fuel : nat) (current_frequency current_time : Z)
    (st : oscillator) : option (oscillator * option Z) :=
  let elapsed := u32 (current_time - last_time st) in
  if (elapsed >? 0) && (current_frequency >? 0) then
    match wrap_phase fuel (add (phase st) (phase_increment current_frequency elapsed)) with
    | Some ph =>
        Some ({| phase := ph; last_time := current_time |},
              Some (duty (sine_value ph)))
    | None => None
    end
  else if elapsed =? 0 then
    Some ({| phase := phase st; last_time := current_time |}, None)
  else Some (st, None).

(** A call of [generate_tone]: the frequency in force and the clock. *)
Record call := {
  frequency : Z;
  at_micros : Z
}.

(** The oscillator together with the PWM duty that [AUDIO_OUT_PIN] holds
    ([None] before the first [analogWrite]). *)
Record output_stage := {
  osc : oscillator;
  audio_out : option Z
}.

Definition booted : output_stage := {| osc := power_on; audio_out := None |}.

Definition tone_call (fuel : nat) (c : call) (b : output_stage) : option output_stage :=
  match generate_tone fuel (frequency c) (at_micros c) (osc b) with
  | Some (o, Some d) => Some {| osc := o; audio_out := Some d |}
  | Some (o, None) => Some {| osc := o; audio_out := audio_out b |}
  | None => None
  end.

(** Successive calls; the result lists the state after each call, in
    order. *)
Fixpoint tone_calls (fuel : nat) (cs : list call) (b : output_stage)
    : option (list output_stage) :=
  match cs with
  | [] => Some []
  | c :: rest =>
      match tone_call fuel c b with
      | Some b' =>
          match tone_calls fuel rest b' with
          | Some l => Some (b' :: l)
          | None => None
          end
      | None => None
      end
  end.

(** The PWM pin holds the sample of the current phase. *)
Definition tracks (b : output_stage) : Prop :=
  audio_out b = Some (duty (sine_value (phase (osc b)))).

(** The globals of the sketch and the statics of [generate_tone]. *)
Record sketch := {
  current_frequency : Z;
  last_update : Z;
  tone : output_stage
}.

(** What one pass of [loop] reads from the board: [analogRead], the two
    readings of [millis()] and the reading of [micros()]. *)
Record poll := {
  analog_read : Z;
  millis_at_test : Z;
  millis_at_update : Z;
  micros_at_tone : Z
}.

(** The globals after [setup]: [set_frequency(440)]. *)
Definition setup : sketch :=
  {| current_frequency := 440; last_update := 0; tone := booted |}.

(** [set_frequency] only stores its argument. *)
Definition set_frequency (frequency : Z) (s : sketch) : sketch :=
  {| current_frequency := frequency; last_update := last_update s; tone := tone s |}.

(** One pass of [loop] (the serial output and the delay left out). *)
Definition loop (fuel : nat) (i : poll) (s : sketch) : option sketch :=
  let adc_value := u16 (analog_read i) in
  let new_frequency := map_frequency adc_value in
  let s :=
    if retune_condition new_frequency (current_frequency s)
         (millis_at_test i) (last_update s)
    then
      let s := {| current_frequency := new_frequency;
                  last_update := last_update s;
                  tone := tone s |} in
      let s := set_frequency (current_frequency s) s in
      {| current_frequency := current_frequency s;
         last_update := u32 (millis_at_update i);
         tone := tone s |}
    else s in
  match
    tone_call fuel
      {| frequency := current_frequency s; at_micros := micros_at_tone i |} (tone s)
  with
  | Some b =>
      Some {| current_frequency := current_frequency s;
              last_update := last_update s;
              tone := b |}
  | None => None
  end.

Fixpoint loops (fuel : nat) (polls : list poll) (s : sketch) : option sketch :=
  match polls with
  | [] => Some s
  | i :: rest =>
      match loop fuel i s with
      | Some s' => loops fuel rest s'
      | None => None
      end
  end.

End Tone.

End Sketch.

(** ** The peripherals of the register-level variant

    The registers that [main.c] programs once the clocks run, with the bit
    names of the header [stm32f4xx.h] of the repository, where every
    register is a plain 32-bit cell.  [SystemClock_Config] and the wait of
    [ADC_Read_Temperature] spin on flags that only the hardware sets; they
    are not part of this model. *)

Module Board.

(** The registers [main.c] touches once the clocks run, as the header
    [stm32f4xx.h] of the repository lays them out: 32-bit cells. *)
Inductive register :=
  | RCC_AHB1ENR | RCC_APB1ENR | RCC_APB2ENR
  | GPIOA_MODER
  | ADC1_CR1 | ADC1_CR2 | ADC1_SMPR2 | ADC1_SQR3
  | DAC_CR
  | TIM2_CR1 | TIM2_CR2 | TIM2_EGR | TIM2_PSC | TIM2_ARR.

Definition index (r : register) : Z :=
  match r with
  | RCC_AHB1ENR => 0 | RCC_APB1ENR => 1 | RCC_APB2ENR => 2
  | GPIOA_MODER => 3
  | ADC1_CR1 => 4 | ADC1_CR2 => 5 | ADC1_SMPR2 => 6 | ADC1_SQR3 => 7
  | DAC_CR => 8
  | TIM2_CR1 => 9 | TIM2_CR2 => 10 | TIM2_EGR => 11 | TIM2_PSC => 12 | TIM2_ARR => 13
  end.

(** The content of every register. *)
Definition soc : Type := register -> Z.

(** [reg = v;] *)
Definition write (r : register) (v : Z) (s : soc) : soc :=
  fun r' => if index r' =? index r then u32 v else s r'.

(** [reg |= mask;] *)
Definition set_bits (r : register) (mask : Z) (s : soc) : soc :=
  write r (Z.lor (s r) mask) s.

(** [reg &= ~mask;] *)
Definition clear_bits (r : register) (mask : Z) (s : soc) : soc :=
  write r (Z.land (s r) (u32 (Z.lnot mask))) s.

(** Register bits of [stm32f4xx.h]. *)
Definition RCC_AHB1ENR_GPIOAEN : Z := Z.shiftl 1 0.
Definition RCC_APB1ENR_DACEN : Z := Z.shiftl 1 29.
Definition RCC_APB1ENR_TIM2EN : Z := Z.shiftl 1 0.
Definition RCC_APB2ENR_ADC1EN : Z := Z.shiftl 1 8.
Definition GPIO_MODER_MODER0 : Z := Z.shiftl 3 0.
Definition GPIO_MODER_MODER5 : Z := Z.shiftl 3 10.
Definition ADC_CR1_RES : Z := Z.shiftl 3 24.
Definition ADC_CR2_ADON : Z := Z.shiftl 1 0.
Definition ADC_CR2_CONT : Z := Z.shiftl 1 1.
Definition ADC_CR2_SWSTART : Z := Z.shiftl 1 30.
Definition ADC_SMPR2_SMP0_0 : Z := Z.shiftl 1 0.
Definition ADC_SMPR2_SMP0_1 : Z := Z.shiftl 1 1.
Definition ADC_SMPR2_SMP0_2 : Z := Z.shiftl 1 2.
Definition DAC_CR_EN1 : Z := Z.shiftl 1 0.
Definition DAC_CR_TEN1 : Z := Z.shiftl 1 2.
Definition DAC_CR_TSEL1_Pos : Z := 3.
Definition DAC_CR_WAVE1_1 : Z := Z.shiftl 1 6.
Definition DAC_CR_MAMP1_Pos : Z := 8.
Definition TIM_CR1_CEN : Z := Z.shiftl 1 0.
Definition TIM_CR2_MMS_1 : Z := Z.shiftl 2 4.
Definition TIM_EGR_UG : Z := Z.shiftl 1 0.

Definition GPIO_Init (s : soc) : soc :=
  let s := set_bits RCC_AHB1ENR RCC_AHB1ENR_GPIOAEN s in
  let s := set_bits GPIOA_MODER GPIO_MODER_MODER0 s in
  let s := set_bits GPIOA_MODER GPIO_MODER_MODER5 s in
  s.

Definition ADC1_Init (s : soc) : soc :=
  let s := set_bits RCC_APB2ENR RCC_APB2ENR_ADC1EN s in
  let s := set_bits ADC1_CR2 ADC_CR2_ADON s in
  let s := clear_bits ADC1_CR1 ADC_CR1_RES s in
  let s := set_bits ADC1_SMPR2
             (Z.lor (Z.lor ADC_SMPR2_SMP0_2 ADC_SMPR2_SMP0_1) ADC_SMPR2_SMP0_0) s in
  let s := write ADC1_SQR3 0 s in
  let s := set_bits ADC1_CR2 ADC_CR2_CONT s in
  let s := set_bits ADC1_CR2 ADC_CR2_SWSTART s in
  s.

Definition DAC1_Init (s : soc) : soc :=
  let s := set_bits RCC_APB1ENR RCC_APB1ENR_DACEN s in
  let s := set_bits DAC_CR DAC_CR_EN1 s in
  let s := set_bits DAC_CR DAC_CR_TEN1 s in
  let s := set_bits DAC_CR (Z.shiftl 2 DAC_CR_TSEL1_Pos) s in
  let s := set_bits DAC_CR DAC_CR_WAVE1_1 s in
  let s := set_bits DAC_CR (Z.shiftl 0 DAC_CR_MAMP1_Pos) s in
  s.

(** [TIM2_Init] on the registers; the period is the one of
    [Firmware.TIM2_Init], [None] for the division by zero. *)
Definition TIM2_Init (frequency : Z) (s : soc) : option soc :=
  let s := clear_bits TIM2_CR1 TIM_CR1_CEN s in
  let s := set_bits RCC_APB1ENR RCC_APB1ENR_TIM2EN s in
  match Firmware.TIM2_Init frequency with
  | Some period =>
      let s := write TIM2_PSC 0 s in
      let s := write TIM2_ARR period s in
      let s := set_bits TIM2_EGR TIM_EGR_UG s in
      let s := set_bits TIM2_CR2 TIM_CR2_MMS_1 s in
      let s := set_bits TIM2_CR1 TIM_CR1_CEN s in
      Some s
  | None => None
  end.

(** [Delay_ms]: the empty [for] loop on the [volatile uint32_t] counter [i],
    started at [i]; the result is the number of times the increment ran,
    [None] when the bound on the iterations is exhausted.  The product
    [ms * 8400] is a [uint32_t] product. *)
Fixpoint Delay_ms_from (fuel : nat) (ms i : Z) : option Z :=
  if i <? u32 (ms * 8400) then
    match fuel with
    | O => None
    | S fuel' => option_map Z.succ (Delay_ms_from fuel' ms (u32 (i + 1)))
    end
  else Some 0.

Definition Delay_ms (fuel : nat) (ms : Z) : option Z := Delay_ms_from fuel ms 0.

(** The two mode bits of a pin in [GPIOx->MODER] (3 is analog mode) and a
    bit field of [width] bits at position [pos] in general. *)
Definition field (pos width reg : Z) : Z :=
  Z.land (Z.shiftr reg pos) (Z.ones width).

Definition pin_mode (moder pin : Z) : Z := field (2 * pin) 2 moder.

End Board.

(** ** Invariant of the loop of [main.c] *)

Module FirmwareLoop.

Import Firmware.

(** The timer is programmed for the frequency in force: [TIM2->ARR] holds
    the period of [current_frequency], the last argument of [TIM2_Init]. *)
Definition coherent (st : registers) : Prop :=
  200 <= current_frequency st <= 2000
  /\ TIM2_Init (current_frequency st) = Some (TIM2_ARR st)
  /\ hd 0 (timer_calls st) = current_frequency st.

End FirmwareLoop.

(** * Part II: properties *)

(** ** Machine integers *)

Module MachineFacts.

Lemma u16_range x : is_u16 (u16 x).
Proof.
  unfold is_u16, u16, wrap. change (2 ^ 16) with 65536.
  apply Z.mod_pos_bound. lia.
Qed.

Lemma u32_range x : is_u32 (u32 x).
Proof.
  unfold is_u32, u32, wrap. change (2 ^ 32) with 4294967296.
  apply Z.mod_pos_bound. lia.
Qed.

Lemma u32_small x : is_u32 x -> u32 x = x.
Proof.
  unfold is_u32, u32, wrap. change (2 ^ 32) with 4294967296.
  intros H. apply Z.mod_small. lia.
Qed.


Lemma i32_small x : 0 <= x < 2147483648 -> i32 x = x.
Proof.
  intros H. unfold i32, signed, wrap.
  change (2 ^ 32) with 4294967296. change (2 ^ (32 - 1)) with 2147483648.
  rewrite Z.mod_small by lia.
  destruct (x <? 2147483648) eqn:E; [reflexivity|].
  apply Z.ltb_ge in E. lia.
Qed.

Lemma i16_range x : -32768 <= i16 x < 32768.
Proof.
  unfold i16, signed, wrap.
  change (2 ^ 16) with 65536. change (2 ^ (16 - 1)) with 32768.
  pose proof (Z.mod_pos_bound x 65536 ltac:(lia)) as H.
  destruct (x mod 65536 <? 32768) eqn:E.
  - apply Z.ltb_lt in E. lia.
  - apply Z.ltb_ge in E. lia.
Qed.

End MachineFacts.

Import MachineFacts.

(** ** Frequency mapping *)

Lemma variants_agree adc_value :
  Temperature_To_Frequency adc_value = map_frequency adc_value.
Proof. reflexivity. Qed.

(** On every [uint16_t] argument no [uint32_t] operation wraps, and the
    function is the linear formula capped at 2000. *)
Lemma map_frequency_clamped v :
  is_u16 v -> map_frequency v = Z.min 2000 (linear v).
Proof.
  unfold is_u16, map_frequency, linear, MIN_FREQ, MAX_FREQ. intros H.
  change (2000 - 200) with 1800.
  rewrite (u32_small v) by (unfold is_u32; lia).
  rewrite (u32_small (v * 1800)) by (unfold is_u32; lia).
  assert (Hq : 0 <= v * 1800 / 4095 <= 28808).
  { split.
    - apply Z.div_pos; lia.
    - apply Z.div_le_upper_bound; lia. }
  rewrite u32_small by (unfold is_u32; lia).
  destruct (200 + v * 1800 / 4095 <? 200) eqn:E1.
  - apply Z.ltb_lt in E1. lia.
  - destruct (200 + v * 1800 / 4095 >? 2000) eqn:E2.
    + apply Z.gtb_lt in E2. lia.
    + rewrite Z.gtb_ltb in E2. apply Z.ltb_ge in E2. lia.
Qed.

Lemma linear_upper v : v <= 4095 -> linear v <= 2000.
Proof.
  intros H. unfold linear.
  assert (v * 1800 / 4095 <= 1800) by (apply Z.div_le_upper_bound; lia).
  lia.
Qed.


Lemma linear_mono a b : a <= b -> linear a <= linear b.
Proof.
  intros H. unfold linear.
  assert (a * 1800 / 4095 <= b * 1800 / 4095) by (apply Z.div_le_mono; lia).
  lia.
Qed.

(** The clamps make the range hold for an argument of any size. *)
Lemma map_frequency_range_any x : 200 <= map_frequency x <= 2000.
Proof.
  unfold map_frequency, MIN_FREQ, MAX_FREQ.
  set (f := u32 (200 + u32 (u32 x * (2000 - 200)) / 4095)).
  destruct (f <? 200) eqn:E1; cbn zeta.
  - cbn. lia.
  - apply Z.ltb_ge in E1.
    destruct (f >? 2000) eqn:E2; [lia|].
    rewrite Z.gtb_ltb in E2. apply Z.ltb_ge in E2. lia.
Qed.

(** C1: for every unsigned 16-bit argument, values above 4095 included, both
    frequency-mapping functions return a value (they are total functions of
    the embedding, with no error result) between 200 and 2000; an argument
    above 4095 is capped to 2000 rather than rejected. *)
Theorem frequency_always_in_range (v : Z) :
  is_u16 v ->
  200 <= map_frequency v <= 2000
  /\ 200 <= Temperature_To_Frequency v <= 2000
  /\ (4095 <= v -> map_frequency v = 2000 /\ Temperature_To_Frequency v = 2000).
Proof.
  intros Hv. change (Temperature_To_Frequency v) with (map_frequency v).
  pose proof (map_frequency_range_any v) as R.
  assert (C : 4095 <= v -> map_frequency v = 2000).
  { intros H. rewrite (map_frequency_clamped v Hv).
    pose proof (linear_mono 4095 v H) as M.
    replace (linear 4095) with 2000 in M by reflexivity. lia. }
  repeat split; try lia; auto.
Qed.

Lemma frequency_always_in_range_witness :
  is_u16 65535
  /\ (200 <= map_frequency 65535 <= 2000
      /\ 200 <= Temperature_To_Frequency 65535 <= 2000
      /\ (4095 <= 65535 ->
          map_frequency 65535 = 2000 /\ Temperature_To_Frequency 65535 = 2000)).
Proof.
  split.
  - unfold is_u16. lia.
  - apply (frequency_always_in_range 65535). unfold is_u16. lia.
Defined.

(** C2: on the nominal samples 0..4095 both functions compute
    200 + (sample * 1800) / 4095 in integer arithmetic (the quotient rounded
    down); hence 0 maps to 200, 4095 to 2000 and 2048 to 1100, which is
    within 1 Hz of 1100. *)
Theorem frequency_is_linear_interpolation (sample : Z) :
  0 <= sample <= 4095 ->
  map_frequency sample = 200 + (sample * 1800) / 4095
  /\ Temperature_To_Frequency sample = 200 + (sample * 1800) / 4095
  /\ map_frequency 0 = 200
  /\ map_frequency 4095 = 2000
  /\ Z.abs (map_frequency 2048 - 1100) <= 1.
Proof.
  intros H. change (Temperature_To_Frequency sample) with (map_frequency sample).
  assert (E : map_frequency sample = 200 + sample * 1800 / 4095).
  { rewrite map_frequency_clamped by (unfold is_u16; lia).
    pose proof (linear_upper sample ltac:(lia)) as U.
    unfold linear in *. lia. }
  repeat split; try exact E; vm_compute; try reflexivity.
  discriminate.
Qed.

Lemma frequency_is_linear_interpolation_witness :
  0 <= 1234 <= 4095
  /\ map_frequency 1234 = 200 + (1234 * 1800) / 4095.
Proof.
  split.
  - lia.
  - apply (frequency_is_linear_interpolation 1234). lia.
Defined.

(** C6: the mapping is monotonically non-decreasing over the nominal
    sample range 0..4095, in both variants. *)
Theorem frequency_monotone (s1 s2 : Z) :
  0 <= s1 -> s1 <= s2 -> s2 <= 4095 ->
  map_frequency s1 <= map_frequency s2
  /\ Temperature_To_Frequency s1 <= Temperature_To_Frequency s2.
Proof.
  intros H0 H1 H2.
  change (Temperature_To_Frequency s1) with (map_frequency s1).
  change (Temperature_To_Frequency s2) with (map_frequency s2).
  rewrite !map_frequency_clamped by (unfold is_u16; lia).
  pose proof (linear_mono s1 s2 H1). lia.
Qed.

Lemma frequency_monotone_witness :
  map_frequency 100 <= map_frequency 101
  /\ Temperature_To_Frequency 100 <= Temperature_To_Frequency 101.
Proof. apply (frequency_monotone 100 101); lia. Defined.

(** ** Retune decision *)

Lemma changed_significantly_spec previous candidate :
  0 <= previous < 2147483648 -> 0 <= candidate < 2147483648 ->
  changed_significantly candidate previous = true
  <-> Z.abs (candidate - previous) > 5.
Proof.
  intros Hp Hc. unfold changed_significantly.
  rewrite !i32_small by assumption.
  rewrite Z.gtb_ltb, Z.ltb_lt. lia.
Qed.

(** C3, as stated, fails on [loop]: with equal frequencies and exactly 100 ms
    on the clock since [last_update] the condition is false, although
    "elapsed >= 100 ms" holds. *)
Lemma retune_at_exactly_100ms :
  ~ (Sketch.retune_condition 1000 1000 100 0 = true
     <-> (Z.abs (1000 - 1000) > 5 \/ u32 (100 - 0) >= 100)).
Proof.
  intros [_ H].
  assert (F : Sketch.retune_condition 1000 1000 100 0 = false) by reflexivity.
  rewrite H in F.
  - discriminate.
  - right. vm_compute. discriminate.
Qed.

(** C3, amended: in [loop] of [main.ino] the frequency is retuned if and only
    if the candidate differs from the previous frequency by more than 5 Hz
    or strictly more than 100 ms have passed on the millisecond clock since
    the last update; the three examples of the spec hold.  The loop of
    [main.c] retunes on the magnitude test alone. *)
Theorem retune_iff (previous candidate now last_update : Z) :
  0 <= previous < 2147483648 -> 0 <= candidate < 2147483648 ->
  (Sketch.retune_condition candidate previous now last_update = true
   <-> (Z.abs (candidate - previous) > 5
        \/ u32 (now - last_update) > Sketch.UPDATE_INTERVAL))
  /\ (changed_significantly candidate previous = true
      <-> Z.abs (candidate - previous) > 5)
  /\ Sketch.retune_condition 1004 1000 50 0 = false
  /\ Sketch.retune_condition 1006 1000 50 0 = true
  /\ Sketch.retune_condition 1000 1000 150 0 = true.
Proof.
  intros Hp Hc.
  pose proof (changed_significantly_spec previous candidate Hp Hc) as M.
  repeat split; try reflexivity; try (apply M; assumption).
  - unfold Sketch.retune_condition. rewrite orb_true_iff.
    intros [H|H].
    + left. apply M. exact H.
    + right. rewrite Z.gtb_ltb, Z.ltb_lt in H. lia.
  - unfold Sketch.retune_condition. rewrite orb_true_iff.
    intros [H|H].
    + left. apply M. exact H.
    + right. rewrite Z.gtb_ltb, Z.ltb_lt. lia.
Qed.

Lemma retune_iff_witness :
  Sketch.retune_condition 1000 1000 101 0 = true
  <-> (Z.abs (1000 - 1000) > 5 \/ u32 (101 - 0) > Sketch.UPDATE_INTERVAL).
Proof. apply (retune_iff 1000 1000 101 0); lia. Defined.

(** ** The timer of the register-level variant *)

Module FirmwareFacts.

Import Firmware.

Lemma TIM2_Init_defined frequency :
  200 <= frequency -> exists period, TIM2_Init frequency = Some period.
Proof.
  intros H. unfold TIM2_Init.
  destruct (frequency =? 0) eqn:E.
  - apply Z.eqb_eq in E. lia.
  - eexists. reflexivity.
Qed.

Lemma startup_safe : exists st, startup = Some st /\ timer_safe st.
Proof.
  eexists. split; [reflexivity|].
  unfold timer_safe. cbn. repeat split; try lia.
  - constructor; [left; reflexivity | constructor].
  - constructor; [lia | constructor].
Qed.

Lemma iteration_safe dr st :
  timer_safe st -> exists st', iteration dr st = Some st' /\ timer_safe st'.
Proof.
  intros (Hc & Hl & Hr). unfold iteration.
  pose proof (map_frequency_range_any (ADC_Read_Temperature dr)) as R.
  change (map_frequency (ADC_Read_Temperature dr))
    with (Temperature_To_Frequency (ADC_Read_Temperature dr)) in R.
  destruct (changed_significantly _ _).
  - destruct (TIM2_Init_defined (Temperature_To_Frequency (ADC_Read_Temperature dr)))
      as [period E]; [lia|].
    rewrite E. eexists. split; [reflexivity|].
    unfold timer_safe. cbn. repeat split; try lia.
    + constructor; [|assumption]. right.
      exists (ADC_Read_Temperature dr). split; [apply u16_range | reflexivity].
    + constructor; [lia | assumption].
  - exists st. split; [reflexivity|]. exact (conj Hc (conj Hl Hr)).
Qed.

Lemma iterations_safe readings : forall st,
  timer_safe st -> exists st', iterations readings st = Some st' /\ timer_safe st'.
Proof.
  induction readings as [|r rest IH]; intros st Hs.
  - exists st. split; [reflexivity | assumption].
  - cbn. destruct (iteration_safe r st Hs) as (st1 & E & Hs1).
    rewrite E. apply IH. exact Hs1.
Qed.

(** C9: whatever the ADC data register holds at each poll, [main] reaches
    every iteration without a division by zero in [TIM2_Init]: each
    frequency passed to [TIM2_Init] is the initial 440 or a result of
    [Temperature_To_Frequency], and lies between 200 and 2000. *)
Theorem timer_never_divides_by_zero (readings : list Z) :
  exists st,
    main readings = Some st
    /\ Forall (fun f => f = 440
                 \/ exists adc, is_u16 adc /\ f = Temperature_To_Frequency adc)
         (timer_calls st)
    /\ Forall (fun f => 200 <= f <= 2000 /\ TIM2_Init f <> None) (timer_calls st).
Proof.
  unfold main. destruct startup_safe as (st0 & E0 & S0). rewrite E0.
  destruct (iterations_safe readings st0 S0) as (st & E & (Hc & Hl & Hr)).
  exists st. repeat split; try assumption.
  eapply Forall_impl; [|exact Hr].
  intros f Hf. cbn beta in Hf. split; [exact Hf|].
  destruct (TIM2_Init_defined f) as [p Ep]; [lia|]. rewrite Ep. discriminate.
Qed.

End FirmwareFacts.

(** ** Binary64 arithmetic on positive normal numbers

    The rounding of [SpecFloat] on the numbers the oscillator meets: every
    operand is +0 or a positive normal number, far from overflow and
    underflow. *)

Module IEEEFacts.

Import IEEE.

(** [digits2_pos] counts the binary digits. *)
Lemma digits2_pos_bounds (p : positive) :
  2 ^ (Zpos (digits2_pos p) - 1) <= Zpos p < 2 ^ Zpos (digits2_pos p).
Proof.
  induction p as [p IH|p IH|]; cbn [digits2_pos].
  - rewrite Pos2Z.inj_succ.
    replace (Z.succ (Zpos (digits2_pos p)) - 1) with (Z.succ (Zpos (digits2_pos p) - 1)) by lia.
    rewrite !Z.pow_succ_r by lia. lia.
  - rewrite Pos2Z.inj_succ.
    replace (Z.succ (Zpos (digits2_pos p)) - 1) with (Z.succ (Zpos (digits2_pos p) - 1)) by lia.
    rewrite !Z.pow_succ_r by lia. lia.
  - cbn. lia.
Qed.

Lemma pow2_lt_mono_inv a b : 0 <= b -> 2 ^ a < 2 ^ b -> a < b.
Proof.
  intros Hb H. destruct (Z_lt_le_dec a b) as [L|L]; [exact L|].
  assert (2 ^ b <= 2 ^ a) by (apply Z.pow_le_mono_r; lia). lia.
Qed.

Lemma digits2_pos_unique (p : positive) (k : Z) :
  2 ^ (k - 1) <= Zpos p < 2 ^ k -> Zpos (digits2_pos p) = k.
Proof.
  intros [L U]. pose proof (digits2_pos_bounds p) as [L' U'].
  set (d := Zpos (digits2_pos p)) in *.
  assert (0 < d) by (unfold d; lia).
  assert (0 < k).
  { destruct (Z_lt_le_dec 0 k); [assumption|].
    destruct (Z.eq_dec k 0) as [->|]; [cbn in U; lia|].
    rewrite Z.pow_neg_r in U by lia. lia. }
  assert (k - 1 < d) by (apply pow2_lt_mono_inv; lia).
  assert (d - 1 < k) by (apply pow2_lt_mono_inv; lia).
  lia.
Qed.

(** Shifting right halves the significand (the round and sticky bits are
    kept aside). *)
Lemma shr_1_m mrs : 0 <= shr_m mrs -> shr_m (shr_1 mrs) = shr_m mrs / 2.
Proof.
  destruct mrs as [m r s]. cbn [shr_m]. intros H.
  destruct m as [|p|p]; [reflexivity| |lia].
  destruct p as [p|p|]; cbn [shr_1 shr_m].
  - rewrite Pos2Z.inj_xI. apply Z.div_unique with (r := 1); lia.
  - rewrite Pos2Z.inj_xO. apply Z.div_unique with (r := 0); lia.
  - reflexivity.
Qed.

Lemma iter_shr_1_m (n : positive) : forall mrs,
  0 <= shr_m mrs ->
  shr_m (iter_pos shr_1 n mrs) = shr_m mrs / 2 ^ Zpos n.
Proof.
  assert (NN : forall mrs, 0 <= shr_m mrs -> 0 <= shr_m (shr_1 mrs)).
  { intros mrs H. rewrite shr_1_m by assumption. apply Z.div_pos; lia. }
  induction n as [n IH|n IH|]; intros mrs H; cbn [iter_pos].
  - pose proof (NN mrs H) as H1.
    assert (H2 : 0 <= shr_m (iter_pos shr_1 n (shr_1 mrs))).
    { rewrite IH by assumption. apply Z.div_pos; [assumption|]. apply Z.pow_pos_nonneg; lia. }
    rewrite IH by assumption. rewrite IH by assumption. rewrite shr_1_m by assumption.
    rewrite !Z.div_div by (try apply Z.pow_pos_nonneg; lia).
    f_equal. rewrite Pos2Z.inj_xI.
    replace (2 * Zpos n + 1) with (1 + Zpos n + Zpos n) by lia.
    rewrite !Z.pow_add_r by lia. change (2 ^ 1) with 2. ring.
  - assert (H2 : 0 <= shr_m (iter_pos shr_1 n mrs)).
    { rewrite IH by assumption. apply Z.div_pos; [assumption|]. apply Z.pow_pos_nonneg; lia. }
    rewrite IH by assumption. rewrite IH by assumption.
    rewrite !Z.div_div by (try apply Z.pow_pos_nonneg; lia).
    f_equal. rewrite <- Z.pow_add_r by lia. f_equal. lia.
  - rewrite shr_1_m by assumption. reflexivity.
Qed.

(** Shifting left by [d] digits. *)
Lemma iter_xO (d p : positive) : Zpos (Pos.iter xO p d) = Zpos p * 2 ^ Zpos d.
Proof.
  induction d as [|d IH] using Pos.peano_ind.
  - cbn. lia.
  - rewrite Pos.iter_succ, Pos2Z.inj_xO, IH, Pos2Z.inj_succ, Z.pow_succ_r by lia. lia.
Qed.

Lemma shr_record_of_loc_m m l : shr_m (shr_record_of_loc m l) = m.
Proof. destruct l as [|[]]; reflexivity. Qed.

(** A significand of [53 + n] digits in the normal range is shifted right
    by exactly [n] digits. *)
Lemma shr_fexp_normal (p : positive) (ex : Z) (lx : location) (n : Z) :
  Zpos (digits2_pos p) = 53 + n -> 0 <= n -> -1074 <= ex + n ->
  exists mrs,
    shr_fexp 53 1024 (Zpos p) ex lx = (mrs, ex + n)
    /\ shr_m mrs = Zpos p / 2 ^ n
    /\ (n = 0 -> mrs = shr_record_of_loc (Zpos p) lx).
Proof.
  intros Hd Hn He. unfold shr_fexp, Zdigits2, fexp, emin. rewrite Hd.
  replace (Z.max (53 + n + ex - 53) (3 - 1024 - 53) - ex) with n by lia.
  destruct n as [|k|k]; [| |lia].
  - cbn [shr]. eexists. split; [rewrite Z.add_0_r; reflexivity|]. split.
    + rewrite shr_record_of_loc_m, Z.pow_0_r, Z.div_1_r. reflexivity.
    + reflexivity.
  - cbn [shr]. eexists. split; [reflexivity|]. split.
    + rewrite iter_shr_1_m; rewrite shr_record_of_loc_m; [reflexivity | lia].
    + discriminate.
Qed.

Lemma round_nearest_even_cases m l :
  round_nearest_even m l = m \/ round_nearest_even m l = m + 1.
Proof.
  destruct l as [|[]]; cbn [round_nearest_even]; auto.
  destruct (Z.even m); auto.
Qed.

(** Rounding to nearest-even in the normal range: the result is a normal
    number whose significand is the shifted one or its successor; when that
    successor is 2^53 the exponent goes up by one. *)
Lemma binary_round_aux_normal sx (p : positive) (ex : Z) (lx : location) (n : Z) :
  Zpos (digits2_pos p) = 53 + n -> 0 <= n -> -1074 <= ex + n -> ex + n + 1 <= 971 ->
  exists m3 e3,
    binary_round_aux 53 1024 sx (Zpos p) ex lx = S754_finite sx m3 e3
    /\ Zpos (digits2_pos m3) = 53
    /\ ((e3 = ex + n /\ Zpos p / 2 ^ n <= Zpos m3 <= Zpos p / 2 ^ n + 1)
        \/ (e3 = ex + n + 1 /\ Zpos m3 = 2 ^ 52 /\ Zpos p / 2 ^ n + 1 = 2 ^ 53)).
Proof.
  intros Hd Hn Hlo Hhi.
  destruct (shr_fexp_normal p ex lx n Hd Hn Hlo) as (mrs & E1 & M1 & _).
  unfold binary_round_aux. rewrite E1.
  pose proof (digits2_pos_bounds p) as [PL PU]. rewrite Hd in PL, PU.
  assert (P2n : 0 < 2 ^ n) by (apply Z.pow_pos_nonneg; lia).
  assert (B1 : 2 ^ 52 <= shr_m mrs < 2 ^ 53).
  { rewrite M1. split.
    - apply Z.div_le_lower_bound; [lia|].
      rewrite <- Z.pow_add_r by lia. replace (n + 52) with (53 + n - 1) by lia. exact PL.
    - apply Z.div_lt_upper_bound; [lia|].
      rewrite <- Z.pow_add_r by lia. replace (n + 53) with (53 + n) by lia. exact PU. }
  set (m2 := round_nearest_even (shr_m mrs) (loc_of_shr_record mrs)).
  assert (C2 : m2 = shr_m mrs \/ m2 = shr_m mrs + 1) by apply round_nearest_even_cases.
  assert (B2 : 2 ^ 52 <= m2 <= 2 ^ 53) by lia.
  destruct m2 as [|p2|p2] eqn:Em2; [lia| |lia].
  destruct (Z.eq_dec (Zpos p2) (2 ^ 53)) as [Top|NotTop].
  - (* the mantissa overflowed to 2^53: one more shift *)
    destruct (shr_fexp_normal p2 (ex + n) loc_Exact 1) as (mrs2 & E2 & M2 & _).
    + apply digits2_pos_unique. rewrite Top. cbn. lia.
    + lia.
    + lia.
    + rewrite E2. rewrite M2, Top. change (2 ^ 53 / 2 ^ 1) with (Zpos 4503599627370496).
      replace (ex + n + 1 <=? 1024 - 53) with true by (symmetry; apply Z.leb_le; lia).
      eexists. eexists. split; [reflexivity|]. split; [reflexivity|].
      right. repeat split; try reflexivity. rewrite <- M1. lia.
  - destruct (shr_fexp_normal p2 (ex + n) loc_Exact 0) as (mrs2 & E2 & M2 & _).
    + apply digits2_pos_unique. change (53 + 0 - 1) with 52. change (53 + 0) with 53. lia.
    + lia.
    + lia.
    + rewrite Z.add_0_r in E2. rewrite E2. rewrite M2, Z.pow_0_r, Z.div_1_r.
      replace (ex + n <=? 1024 - 53) with true by (symmetry; apply Z.leb_le; lia).
      exists p2, (ex + n). split; [reflexivity|]. split.
      * apply digits2_pos_unique. change (53 - 1) with 52. lia.
      * left. split; [reflexivity|]. rewrite <- M1. lia.
Qed.

(** A 53-digit significand is kept as it is. *)
Lemma binary_round_aux_exact sx (p : positive) (ex : Z) :
  Zpos (digits2_pos p) = 53 -> -1074 <= ex <= 971 ->
  binary_round_aux 53 1024 sx (Zpos p) ex loc_Exact = S754_finite sx p ex.
Proof.
  intros Hd He.
  destruct (shr_fexp_normal p ex loc_Exact 0) as (mrs & E1 & M1 & R1); try lia.
  unfold binary_round_aux. rewrite Z.add_0_r in E1. rewrite E1.
  rewrite (R1 eq_refl). cbn [shr_record_of_loc shr_m loc_of_shr_record round_nearest_even].
  rewrite E1. rewrite (R1 eq_refl). cbn [shr_record_of_loc shr_m].
  replace (ex <=? 1024 - 53) with true by (symmetry; apply Z.leb_le; lia).
  reflexivity.
Qed.

Lemma normal_inv x : normal x ->
  exists m e, x = S754_finite false m e /\ Zpos (digits2_pos m) = 53 /\ -1074 <= e <= 971.
Proof.
  destruct x as [s|s| |[] m e]; cbn; try contradiction.
  intros H. exists m, e. auto.
Qed.

Lemma normal_mantissa m :
  Zpos (digits2_pos m) = 53 -> 4503599627370496 <= Zpos m < 9007199254740992.
Proof. intros H. pose proof (digits2_pos_bounds m) as B. rewrite H in B. exact B. Qed.


(** Order of normal numbers: the exponent decides first. *)
Lemma normal_le_ulps m1 e1 m2 e2 :
  normal (S754_finite false m1 e1) -> normal (S754_finite false m2 e2) ->
  SFleb (S754_finite false m1 e1) (S754_finite false m2 e2) = true ->
  e1 <= e2 /\ Zpos m1 * 2 ^ (e1 + 1074) <= Zpos m2 * 2 ^ (e2 + 1074).
Proof.
  intros [D1 R1] [D2 R2]. unfold SFleb, SFcompare.
  pose proof (normal_mantissa m1 D1) as B1. pose proof (normal_mantissa m2 D2) as B2.
  destruct (Z.compare_spec e1 e2) as [E|L|G].
  - subst e2. rewrite Pos.compare_cont_spec. cbn [Pos.switch_Eq].
    destruct (Pos.compare_spec m1 m2) as [E|L|G]; intros H; try discriminate.
    + subst. lia.
    + split; [lia|]. apply Z.mul_le_mono_nonneg_r; [apply Z.pow_nonneg|]; lia.
  - intros _. split; [lia|].
    replace (e2 + 1074) with ((e2 - e1) + (e1 + 1074)) by lia.
    rewrite (Z.pow_add_r 2 (e2 - e1) (e1 + 1074)) by lia.
    assert (2 <= 2 ^ (e2 - e1)).
    { change 2 with (2 ^ 1) at 1. apply Z.pow_le_mono_r; lia. }
    assert (0 < 2 ^ (e1 + 1074)) by (apply Z.pow_pos_nonneg; lia).
    set (P := 2 ^ (e1 + 1074)) in *. set (Q := 2 ^ (e2 - e1)) in *.
    assert (Zpos m1 * P <= (2 * Zpos m2) * P) by (apply Z.mul_le_mono_nonneg_r; lia).
    assert (0 <= Zpos m2 * P) by (apply Z.mul_nonneg_nonneg; lia).
    nia.
  - discriminate.
Qed.

(** Alignment of a significand to a smaller exponent. *)
Lemma shl_align_spec mx ex ex' :
  exists m, shl_align mx ex ex' = (m, Z.min ex ex')
            /\ Zpos m = Zpos mx * 2 ^ (ex - Z.min ex ex').
Proof.
  unfold shl_align. destruct (ex' - ex) as [|d|d] eqn:E.
  - exists mx. replace (Z.min ex ex') with ex by lia.
    rewrite Z.sub_diag. split; [reflexivity | cbn; lia].
  - exists mx. replace (Z.min ex ex') with ex by lia.
    rewrite Z.sub_diag. split; [reflexivity | cbn; lia].
  - exists (Pos.iter xO mx d). replace (Z.min ex ex') with ex' by lia.
    split; [reflexivity|]. rewrite iter_xO. f_equal. f_equal. lia.
Qed.

Lemma digits2_pos_shift (m p : positive) (k : Z) :
  0 <= k -> Zpos m = Zpos p * 2 ^ k ->
  Zpos (digits2_pos m) = Zpos (digits2_pos p) + k.
Proof.
  intros Hk E. apply digits2_pos_unique. rewrite E.
  pose proof (digits2_pos_bounds p) as [L U].
  assert (0 < 2 ^ k) by (apply Z.pow_pos_nonneg; lia).
  replace (Zpos (digits2_pos p) + k - 1) with ((Zpos (digits2_pos p) - 1) + k) by lia.
  rewrite !Z.pow_add_r by lia. split.
  - apply Z.mul_le_mono_nonneg_r; lia.
  - apply Z.mul_lt_mono_pos_r; lia.
Qed.

Lemma digits2_pos_le (p : positive) (k : Z) :
  0 <= k -> Zpos p < 2 ^ k -> Zpos (digits2_pos p) <= k.
Proof.
  intros Hk H. pose proof (digits2_pos_bounds p) as [L _].
  assert (Zpos (digits2_pos p) - 1 < k) by (apply pow2_lt_mono_inv; lia). lia.
Qed.

Lemma digits2_pos_ge (p : positive) (k : Z) :
  2 ^ k <= Zpos p -> k < Zpos (digits2_pos p).
Proof.
  intros H. pose proof (digits2_pos_bounds p) as [_ U].
  apply pow2_lt_mono_inv; lia.
Qed.

(** Conversion of a positive integer below 2^53 is exact. *)
Lemma of_int_normal (p : positive) :
  Zpos p < 2 ^ 53 ->
  exists m, of_int (Zpos p) = S754_finite false m (Zpos (digits2_pos p) - 53)
            /\ Zpos (digits2_pos m) = 53
            /\ Zpos m = Zpos p * 2 ^ (53 - Zpos (digits2_pos p)).
Proof.
  intros H. pose proof (digits2_pos_le p 53 ltac:(lia) H) as D.
  unfold of_int, binary_normalize, binary_round, fexp, emin, prec, emax.
  set (d := Zpos (digits2_pos p)) in *.
  assert (0 < d) by (unfold d; lia).
  replace (Z.max (d + 0 - 53) (3 - 1024 - 53)) with (d - 53) by lia.
  destruct (shl_align_spec p 0 (d - 53)) as (m & E & V).
  rewrite E. replace (Z.min 0 (d - 53)) with (d - 53) in * by lia.
  replace (0 - (d - 53)) with (53 - d) in V by lia.
  assert (Dm : Zpos (digits2_pos m) = 53).
  { rewrite (digits2_pos_shift m p (53 - d)); fold d; lia. }
  exists m. split; [|split; assumption].
  apply binary_round_aux_exact; [assumption | lia].
Qed.

Lemma normal_of_int (z : Z) :
  1 <= z < 2 ^ 32 ->
  normal (of_int z) /\ -52 <= expo (of_int z) <= -21.
Proof.
  intros H. destruct z as [|p|p]; try lia.
  destruct (of_int_normal p) as (m & E & Dm & V).
  { assert (2 ^ 32 < 2 ^ 53) by (apply Z.pow_lt_mono_r; lia). lia. }
  rewrite E. cbn [normal expo].
  pose proof (digits2_pos_le p 32 ltac:(lia) ltac:(lia)).
  assert (0 < Zpos (digits2_pos p)) by lia.
  repeat split; try assumption; lia.
Qed.

(** The four operations on positive normal numbers, with the exponent of
    the result. *)
Lemma mul_normal x y :
  normal x -> normal y ->
  -1074 <= expo x + expo y + 52 -> expo x + expo y + 54 <= 971 ->
  normal (mul x y)
  /\ expo x + expo y + 52 <= expo (mul x y) <= expo x + expo y + 54.
Proof.
  intros Nx Ny.
  destruct (normal_inv x Nx) as (mx & ex & -> & Dx & Rx).
  destruct (normal_inv y Ny) as (my & ey & -> & Dy & Ry).
  cbn [expo]. intros Lo Hi.
  pose proof (normal_mantissa mx Dx) as Bx. pose proof (normal_mantissa my Dy) as By.
  unfold mul, SFmul. cbn [xorb].
  assert (PL : 2 ^ 104 <= Zpos (mx * my)).
  { rewrite Pos2Z.inj_mul. change (2 ^ 104) with (4503599627370496 * 4503599627370496). nia. }
  assert (PU : Zpos (mx * my) < 2 ^ 106).
  { rewrite Pos2Z.inj_mul. change (2 ^ 106) with (9007199254740992 * 9007199254740992). nia. }
  pose proof (digits2_pos_ge _ _ PL) as DL.
  pose proof (digits2_pos_le _ 106 ltac:(lia) PU) as DU.
  destruct (binary_round_aux_normal false (mx * my) (ex + ey) loc_Exact
              (Zpos (digits2_pos (mx * my)) - 53))
    as (m3 & e3 & E & D3 & C); try lia.
  unfold prec, emax. rewrite E. cbn [normal expo].
  repeat split; try assumption; lia.
Qed.

Lemma div_normal x y :
  normal x -> normal y ->
  -1074 <= expo x - expo y - 53 -> expo x - expo y - 51 <= 971 ->
  normal (div x y)
  /\ expo x - expo y - 53 <= expo (div x y) <= expo x - expo y - 51.
Proof.
  intros Nx Ny.
  destruct (normal_inv x Nx) as (mx & ex & -> & Dx & Rx).
  destruct (normal_inv y Ny) as (my & ey & -> & Dy & Ry).
  cbn [expo]. intros Lo Hi.
  pose proof (normal_mantissa mx Dx) as Bx. pose proof (normal_mantissa my Dy) as By.
  unfold div, SFdiv, SFdiv_core_binary, Zdigits2, fexp, emin, prec, emax.
  rewrite Dx, Dy.
  replace (Z.min (Z.max (53 + ex - (53 + ey) - 53) (3 - 1024 - 53)) (ex - ey))
    with (ex - ey - 53) by lia.
  replace (ex - ey - (ex - ey - 53)) with 53 by lia.
  rewrite Z.shiftl_mul_pow2 by lia.
  change (2 ^ 53) with 9007199254740992.
  pose proof (Z.div_eucl_eq (Zpos mx * 9007199254740992) (Zpos my) ltac:(lia)) as Q.
  pose proof (Z.mod_pos_bound (Zpos mx * 9007199254740992) (Zpos my) ltac:(lia)) as R.
  unfold Z.modulo in R.
  destruct (Z.div_eucl (Zpos mx * 9007199254740992) (Zpos my)) as [q r].
  assert (QL : 2 ^ 52 <= q) by (change (2 ^ 52) with 4503599627370496; nia).
  assert (QU : q < 2 ^ 54) by (change (2 ^ 54) with 18014398509481984; nia).
  destruct q as [|pq|pq]; try (change (2 ^ 52) with 4503599627370496 in QL; lia).
  pose proof (digits2_pos_ge _ _ QL) as DL.
  pose proof (digits2_pos_le _ 54 ltac:(lia) QU) as DU.
  destruct (binary_round_aux_normal false pq (ex - ey - 53) (new_location (Zpos my) r)
              (Zpos (digits2_pos pq) - 53))
    as (m3 & e3 & E & D3 & C); try lia.
  cbn [xorb]. rewrite E. cbn [normal expo].
  repeat split; try assumption; lia.
Qed.

Lemma add_normal x y :
  normal x -> normal y -> Z.max (expo x) (expo y) + 2 <= 971 ->
  normal (add x y) /\ expo (add x y) <= Z.max (expo x) (expo y) + 2.
Proof.
  intros Nx Ny.
  destruct (normal_inv x Nx) as (mx & ex & -> & Dx & Rx).
  destruct (normal_inv y Ny) as (my & ey & -> & Dy & Ry).
  cbn [expo]. intros Hi.
  pose proof (normal_mantissa mx Dx) as Bx. pose proof (normal_mantissa my Dy) as By.
  unfold add, SFadd. cbn [cond_Zopp].
  set (ez := Z.min ex ey).
  destruct (shl_align_spec mx ex ez) as (ax & Ex & Vx).
  destruct (shl_align_spec my ey ez) as (ay & Ey & Vy).
  rewrite Ex, Ey. cbn [fst].
  replace (Z.min ex ez) with ez in Vx by (unfold ez; lia).
  replace (Z.min ey ez) with ez in Vy by (unfold ez; lia).
  change (Zpos ax + Zpos ay) with (Zpos (ax + ay)).
  cbn [binary_normalize]. unfold binary_round, fexp, emin, prec, emax.
  set (d := Zpos (digits2_pos (ax + ay))).
  (* the sum has at least 53 digits and at most 54 more than the gap *)
  assert (P1 : 0 < 2 ^ (ex - ez)) by (apply Z.pow_pos_nonneg; unfold ez; lia).
  assert (P2 : 0 < 2 ^ (ey - ez)) by (apply Z.pow_pos_nonneg; unfold ez; lia).
  set (g := Z.max ex ey - ez).
  assert (G1 : 2 ^ (ex - ez) <= 2 ^ g) by (apply Z.pow_le_mono_r; unfold g, ez; lia).
  assert (G2 : 2 ^ (ey - ez) <= 2 ^ g) by (apply Z.pow_le_mono_r; unfold g, ez; lia).
  assert (SL : 2 ^ 52 <= Zpos (ax + ay)).
  { rewrite Pos2Z.inj_add, Vx, Vy. change (2 ^ 52) with 4503599627370496. nia. }
  assert (SU : Zpos (ax + ay) < 2 ^ (54 + g)).
  { rewrite Pos2Z.inj_add, Vx, Vy. rewrite Z.pow_add_r by (unfold g, ez; lia).
    change (2 ^ 54) with 18014398509481984. nia. }
  pose proof (digits2_pos_ge _ _ SL) as DL. fold d in DL.
  pose proof (digits2_pos_le _ (54 + g) ltac:(unfold g, ez; lia) SU) as DU. fold d in DU.
  replace (Z.max (d + ez - 53) (3 - 1024 - 53)) with (ez + (d - 53)) by (unfold ez; lia).
  destruct (shl_align_spec (ax + ay) ez (ez + (d - 53))) as (az & Ez & Vz).
  rewrite Ez. replace (Z.min ez (ez + (d - 53))) with ez in * by lia.
  rewrite Z.sub_diag, Z.pow_0_r, Z.mul_1_r in Vz.
  injection Vz as ->.
  destruct (binary_round_aux_normal false (ax + ay) ez loc_Exact (d - 53))
    as (m3 & e3 & E & D3 & C); try (unfold d, g, ez in *; lia).
  rewrite E. cbn [normal expo].
  unfold g, ez in *. repeat split; try assumption; lia.
Qed.

(** [x - y] for [y <= x] not too far apart: +0 or a normal number, and
    strictly below [x]. *)
Lemma sub_normal x y :
  normal x -> normal y -> SFleb y x = true ->
  -1022 <= expo y -> expo x - expo y <= 51 -> expo x <= 970 ->
  (sub x y = S754_zero false \/ normal (sub x y))
  /\ 0 <= ulps (sub x y) < ulps x.
Proof.
  intros Nx Ny Le.
  destruct (normal_inv x Nx) as (mx & ex & -> & Dx & Rx).
  destruct (normal_inv y Ny) as (my & ey & -> & Dy & Ry).
  destruct (normal_le_ulps my ey mx ex Ny Nx Le) as [Hexp Hval].
  cbn [expo]. intros Lo Gap Hi.
  pose proof (normal_mantissa mx Dx) as Bx. pose proof (normal_mantissa my Dy) as By.
  unfold sub, SFsub. cbn [cond_Zopp].
  replace (Z.min ex ey) with ey by lia.
  destruct (shl_align_spec mx ex ey) as (ax & Ex & Vx).
  destruct (shl_align_spec my ey ey) as (ay & Ey & Vy).
  rewrite Ex, Ey. cbn [fst].
  replace (Z.min ex ey) with ey in Vx by lia.
  rewrite Z.min_id, Z.sub_diag, Z.pow_0_r, Z.mul_1_r in Vy.
  set (P := 2 ^ (ey + 1074)).
  assert (PP : 0 < P) by (apply Z.pow_pos_nonneg; lia).
  assert (UX : ulps (S754_finite false mx ex) = Zpos ax * P).
  { cbn [ulps cond_Zopp]. rewrite Vx. unfold P.
    rewrite <- Z.mul_assoc, <- Z.pow_add_r by lia. f_equal. f_equal. lia. }
  rewrite UX. fold P in Hval.
  replace (Zpos mx * 2 ^ (ex + 1074)) with (Zpos ax * P) in Hval by (rewrite <- UX; reflexivity).
  assert (AU : Zpos ax < 2 ^ (53 + (ex - ey))).
  { rewrite Vx, Z.pow_add_r by lia. change (2 ^ 53) with 9007199254740992.
    assert (0 < 2 ^ (ex - ey)) by (apply Z.pow_pos_nonneg; lia). nia. }
  rewrite Vy.
  assert (HD : Zpos my <= Zpos ax) by nia.
  destruct (Zpos ax - Zpos my) as [|pD|pD] eqn:ED; [| |lia].
  - cbn [binary_normalize ulps]. split; [left; reflexivity | nia].
  - cbn [binary_normalize]. unfold binary_round, fexp, emin, prec, emax.
    set (d := Zpos (digits2_pos pD)).
    assert (0 < d) by (unfold d; lia).
    replace (Z.max (d + ey - 53) (3 - 1024 - 53)) with (d + ey - 53) by lia.
    destruct (shl_align_spec pD ey (d + ey - 53)) as (az & Ez & Vz). rewrite Ez.
    destruct (Z_lt_le_dec d 53) as [Small|Large].
    + (* fewer than 53 digits: the difference is exact *)
      replace (Z.min ey (d + ey - 53)) with (d + ey - 53) in * by lia.
      replace (ey - (d + ey - 53)) with (53 - d) in Vz by lia.
      assert (Dz : Zpos (digits2_pos az) = 53).
      { rewrite (digits2_pos_shift az pD (53 - d)); fold d; lia. }
      rewrite binary_round_aux_exact by (try assumption; lia).
      cbn [normal ulps cond_Zopp]. split; [right; split; [assumption | lia]|].
      rewrite Vz. rewrite <- Z.mul_assoc, <- Z.pow_add_r by lia.
      replace (53 - d + (d + ey - 53 + 1074)) with (ey + 1074) by lia. fold P.
      nia.
    + replace (Z.min ey (d + ey - 53)) with ey in * by lia.
      rewrite Z.sub_diag, Z.pow_0_r, Z.mul_1_r in Vz. injection Vz as ->.
      assert (DU : d <= 53 + (ex - ey)).
      { apply digits2_pos_le; lia. }
      set (n := d - 53).
      destruct (binary_round_aux_normal false pD ey loc_Exact n)
        as (m3 & e3 & E & D3 & C); try (unfold n, d in *; lia).
      rewrite E. cbn [normal ulps cond_Zopp].
      assert (P2n : 0 < 2 ^ n) by (apply Z.pow_pos_nonneg; unfold n; lia).
      assert (N51 : 2 ^ n <= 2 ^ 51) by (apply Z.pow_le_mono_r; unfold n; lia).
      change (2 ^ 51) with 2251799813685248 in N51.
      pose proof (Z.mul_div_le (Zpos pD) (2 ^ n) P2n) as MD.
      assert (UB : Zpos m3 * 2 ^ (e3 + 1074) <= (Zpos pD + 2 ^ n) * P).
      { destruct C as [(-> & _ & C)|(-> & M3 & C)].
        - replace (ey + n + 1074) with (n + (ey + 1074)) by lia.
          rewrite Z.pow_add_r by (unfold n; lia). fold P.
          rewrite Z.mul_assoc. apply Z.mul_le_mono_nonneg_r; [lia|]. nia.
        - replace (ey + n + 1 + 1074) with (1 + n + (ey + 1074)) by lia.
          rewrite !Z.pow_add_r by (unfold n; lia). fold P. change (2 ^ 1) with 2.
          rewrite M3. change (2 ^ 52) with 4503599627370496.
          change (2 ^ 53) with 9007199254740992 in C.
          rewrite !Z.mul_assoc. apply Z.mul_le_mono_nonneg_r; [lia|]. nia. }
      split.
      * right. split; [assumption|].
        destruct C as [(-> & _)|(-> & _)]; unfold n; lia.
      * split; [apply Z.mul_nonneg_nonneg; [lia | apply Z.pow_nonneg; lia]|].
        eapply Z.le_lt_trans; [exact UB|].
        apply Z.mul_lt_mono_pos_r; lia.
Qed.

End IEEEFacts.

(** ** The tone generator *)

Module SketchFacts.

Import IEEE IEEEFacts Sketch.

Lemma normal_TWO_PI : normal TWO_PI /\ expo TWO_PI = -50.
Proof. cbn. repeat split; lia. Qed.

Lemma of_int_million : of_int 1000000 = S754_finite false 8589934592000000 (-33).
Proof. reflexivity. Qed.

(** The comparisons of C on positive normal numbers. *)
Lemma normal_not_le_lt x y :
  normal x -> normal y -> SFleb y x = false -> SFltb x y = true.
Proof.
  intros Nx Ny.
  destruct (normal_inv x Nx) as (mx & ex & -> & _).
  destruct (normal_inv y Ny) as (my & ey & -> & _).
  unfold SFleb, SFltb, SFcompare.
  change (Pos.compare_cont Eq my mx) with (Pos.compare my mx).
  change (Pos.compare_cont Eq mx my) with (Pos.compare mx my).
  destruct (Z.compare_spec ey ex), (Z.compare_spec ex ey); try lia; try discriminate; try reflexivity.
  destruct (Pos.compare_spec my mx), (Pos.compare_spec mx my); try lia; try discriminate; reflexivity.
Qed.

Lemma normal_lt_expo x y :
  normal x -> normal y -> SFltb x y = true -> expo x <= expo y.
Proof.
  intros Nx Ny H.
  assert (L : SFleb x y = true).
  { unfold SFltb in H. unfold SFleb. destruct (SFcompare x y) as [[]|]; try discriminate; reflexivity. }
  destruct (normal_inv x Nx) as (mx & ex & -> & Dx).
  destruct (normal_inv y Ny) as (my & ey & -> & Dy).
  cbn [expo]. apply (normal_le_ulps mx ex my ey Nx Ny L).
Qed.

Lemma normal_ulps_expo x y :
  normal x -> normal y -> ulps x < ulps y -> expo x <= expo y.
Proof.
  intros Nx Ny.
  destruct (normal_inv x Nx) as (mx & ex & -> & Dx & Rx).
  destruct (normal_inv y Ny) as (my & ey & -> & Dy & Ry).
  cbn [expo ulps cond_Zopp]. intros H.
  pose proof (normal_mantissa mx Dx) as Bx. pose proof (normal_mantissa my Dy) as By.
  destruct (Z_le_gt_dec ex ey) as [|G]; [assumption|exfalso].
  replace (ex + 1074) with ((ex - ey) + (ey + 1074)) in H by lia.
  rewrite (Z.pow_add_r 2 (ex - ey) (ey + 1074)) in H by lia.
  assert (2 <= 2 ^ (ex - ey)).
  { change 2 with (2 ^ 1) at 1. apply Z.pow_le_mono_r; lia. }
  assert (0 < 2 ^ (ey + 1074)) by (apply Z.pow_pos_nonneg; lia).
  set (P := 2 ^ (ey + 1074)) in *. set (Q := 2 ^ (ex - ey)) in *.
  assert (Zpos my * P <= (2 * Zpos mx) * P) by (apply Z.mul_le_mono_nonneg_r; lia).
  assert (0 <= Zpos mx * P) by (apply Z.mul_nonneg_nonneg; lia).
  nia.
Qed.

Lemma wrapped_in_period x : wrapped x -> in_period x.
Proof.
  intros [[->|N] L]; split; try assumption; try reflexivity.
  destruct (normal_inv x N) as (m & e & -> & _). reflexivity.
Qed.

Lemma normal_ulps_pos x : normal x -> 0 < ulps x.
Proof.
  intros N. destruct (normal_inv x N) as (m & e & -> & _ & R).
  cbn [ulps cond_Zopp]. apply Z.mul_pos_pos; [lia|]. apply Z.pow_pos_nonneg; lia.
Qed.

Lemma normal_lt_ulps x y :
  normal x -> normal y -> SFltb x y = true -> ulps x < ulps y.
Proof.
  intros Nx Ny.
  destruct (normal_inv x Nx) as (mx & ex & -> & Dx & Rx).
  destruct (normal_inv y Ny) as (my & ey & -> & Dy & Ry).
  pose proof (normal_mantissa mx Dx) as Bx. pose proof (normal_mantissa my Dy) as By.
  unfold SFltb, SFcompare. cbn [ulps cond_Zopp].
  change (Pos.compare_cont Eq mx my) with (Pos.compare mx my).
  destruct (Z.compare_spec ex ey) as [E|L|G]; try discriminate.
  - subst ey. destruct (Pos.compare_spec mx my) as [E|L|G]; try discriminate.
    intros _. apply Z.mul_lt_mono_pos_r; [apply Z.pow_pos_nonneg|]; lia.
  - intros _.
    replace (ey + 1074) with ((ey - ex) + (ex + 1074)) by lia.
    rewrite (Z.pow_add_r 2 (ey - ex) (ex + 1074)) by lia.
    assert (2 <= 2 ^ (ey - ex)).
    { change 2 with (2 ^ 1) at 1. apply Z.pow_le_mono_r; lia. }
    assert (0 < 2 ^ (ex + 1074)) by (apply Z.pow_pos_nonneg; lia).
    set (P := 2 ^ (ex + 1074)) in *. set (Q := 2 ^ (ey - ex)) in *.
    assert (Zpos mx * P < (2 * Zpos my) * P) by (apply Z.mul_lt_mono_pos_r; lia).
    assert (0 <= Zpos my * P) by (apply Z.mul_nonneg_nonneg; lia).
    nia.
Qed.

(** The value of a wrapped phase, in units of 2^-1074, is below that of
    [TWO_PI], 7074237752028440 * 2^1024 units, which is below 2 pi. *)
Lemma wrapped_value x : wrapped x -> 0 <= ulps x < ulps TWO_PI.
Proof.
  pose proof (normal_ulps_pos TWO_PI (proj1 normal_TWO_PI)) as P2.
  intros [[->|N] L].
  - cbn [ulps zero]. lia.
  - pose proof (normal_ulps_pos x N).
    pose proof (normal_lt_ulps x TWO_PI N (proj1 normal_TWO_PI) L). lia.
Qed.

(** For a nonzero [uint32_t] frequency and elapsed time the increment is a
    normal number below 2^51. *)
Lemma phase_increment_normal f elapsed :
  1 <= f < 2 ^ 32 -> 1 <= elapsed < 2 ^ 32 ->
  normal (phase_increment f elapsed) /\ expo (phase_increment f elapsed) <= -2.
Proof.
  intros Hf He. unfold phase_increment.
  destruct (normal_of_int f Hf) as [Nf Ef].
  destruct (normal_of_int elapsed He) as [Ne Ee].
  destruct normal_TWO_PI as [N2 E2].
  assert (Nm : normal (of_int 1000000) /\ expo (of_int 1000000) = -33).
  { rewrite of_int_million. cbn. repeat split; lia. }
  destruct Nm as [Nm Em].
  destruct (div_normal (of_int elapsed) (of_int 1000000) Ne Nm) as [Nt Et]; try lia.
  destruct (mul_normal TWO_PI (of_int f) N2 Nf) as [Nw Ew]; try lia.
  destruct (mul_normal (mul TWO_PI (of_int f)) (div (of_int elapsed) (of_int 1000000)) Nw Nt)
    as [Ni Ei]; try lia.
  split; [assumption | lia].
Qed.

(** The sum of a wrapped phase and such an increment is below 2^53. *)
Lemma advance_normal p inc :
  wrapped p -> normal inc -> expo inc <= -2 ->
  normal (add p inc) /\ expo (add p inc) <= 0.
Proof.
  intros [[->|Np] L] Ni Ei.
  - destruct (normal_inv inc Ni) as (m & e & -> & _). cbn in *. split; [assumption | lia].
  - pose proof (normal_lt_expo p TWO_PI Np (proj1 normal_TWO_PI) L) as Ep.
    rewrite (proj2 normal_TWO_PI) in Ep.
    destruct (add_normal p inc Np Ni) as [Na Ea]; try lia.
    split; [assumption | lia].
Qed.

(** The loop ends: each subtraction of [TWO_PI] lowers the value, counted
    in units of 2^-1074; the result does not depend on the bound once the
    bound is large enough. *)
Lemma wrap_phase_terminates (n : Z) : 0 <= n ->
  forall x, ulps x = n -> (x = zero \/ normal x /\ expo x <= 0) ->
  exists fuel0 r,
    (forall fuel, (fuel0 <= fuel)%nat -> wrap_phase fuel x = Some r) /\ wrapped r.
Proof.
  intros Hn. pattern n. apply Z_lt_induction; [|exact Hn]. clear n Hn.
  intros n IH x Ux Hx.
  destruct (ge x TWO_PI) eqn:G.
  - (* one more turn to remove *)
    destruct Hx as [->|[Nx Ex]]; [discriminate|].
    destruct normal_TWO_PI as [N2 E2].
    destruct (sub_normal x TWO_PI Nx N2 G) as [Cr Ur]; try lia.
    destruct (IH (ulps (sub x TWO_PI)) ltac:(lia) (sub x TWO_PI) eq_refl) as (fuel0 & r & Hr & Wr).
    { destruct Cr as [Z|Nr]; [left; exact Z|right].
      split; [assumption|].
      pose proof (normal_ulps_expo (sub x TWO_PI) x Nr Nx ltac:(lia)). lia. }
    exists (S fuel0), r. split; [|assumption].
    intros [|fuel] Hf; [lia|]. cbn [wrap_phase]. rewrite G. apply Hr. lia.
  - exists O, x. split.
    + intros [|fuel] _; cbn [wrap_phase]; rewrite G; reflexivity.
    + destruct Hx as [->|[Nx Ex]].
      * split; [left; reflexivity | reflexivity].
      * split; [right; assumption|].
        apply normal_not_le_lt; [assumption | apply normal_TWO_PI | exact G].
Qed.

Section Tone.

Variable sin : double -> double.
Variable int16_of_unrepresentable : double -> Z.

Abbreviation sine_value := (Sketch.sine_value sin int16_of_unrepresentable).
Abbreviation generate_tone := (Sketch.generate_tone sin int16_of_unrepresentable).
Abbreviation tone_call := (Sketch.tone_call sin int16_of_unrepresentable).
Abbreviation tone_calls := (Sketch.tone_calls sin int16_of_unrepresentable).
Abbreviation tracks := (Sketch.tracks sin int16_of_unrepresentable).

(** *** Output range *)

Lemma sine_value_range ph : 0 <= sine_value ph <= 4095.
Proof.
  unfold Sketch.sine_value.
  set (raw := i16 _).
  destruct (raw <? 0) eqn:E1.
  - cbn. lia.
  - apply Z.ltb_ge in E1.
    destruct (raw >? 4095) eqn:E2; [lia|].
    rewrite Z.gtb_ltb in E2. apply Z.ltb_ge in E2. lia.
Qed.

Lemma duty_range s : 0 <= s <= 4095 -> 0 <= duty s <= 255.
Proof.
  intros H. unfold duty. rewrite Z.shiftr_div_pow2 by lia.
  change (2 ^ 4) with 16. split.
  - apply Z.div_pos; lia.
  - apply Z.lt_succ_r. apply Z.div_lt_upper_bound; lia.
Qed.

Lemma generate_tone_emits fuel f t st st' d :
  generate_tone fuel f t st = Some (st', Some d) ->
  d = duty (sine_value (phase st')).
Proof.
  unfold Sketch.generate_tone.
  destruct ((u32 (t - last_time st) >? 0) && (f >? 0)).
  - destruct (wrap_phase fuel _) as [ph|]; [|discriminate].
    intros H. injection H as <- <-. reflexivity.
  - destruct (u32 (t - last_time st) =? 0); discriminate.
Qed.

(** C5: whatever [sin] returns and whatever the phase, the 12-bit sample is
    within 0..4095 and the duty written to the pin within 0..255; the
    sample is 2048 plus the integer part of 2047 * sin(phase) whenever that
    sum is a 12-bit value, and every write of [generate_tone] is the duty of
    the sample of the new phase. *)
Theorem sample_within_dac_range (ph : double) :
  0 <= sine_value ph <= 4095
  /\ 0 <= duty (sine_value ph) <= 255
  /\ (forall z, trunc (mul (of_int 2047) (sin ph)) = Some z ->
                -2048 <= z <= 2047 -> sine_value ph = 2048 + z)
  /\ (forall fuel f t st st' d,
        generate_tone fuel f t st = Some (st', Some d) ->
        d = duty (sine_value (phase st')) /\ 0 <= d <= 255).
Proof.
  pose proof (sine_value_range ph) as R.
  split; [exact R|]. split; [apply duty_range; exact R|]. split.
  - intros z Hz Rz. unfold Sketch.sine_value, to_int16. rewrite Hz.
    replace ((-32768 <=? z) && (z <=? 32767)) with true
      by (symmetry; apply andb_true_iff; split; apply Z.leb_le; lia).
    assert (E : i16 (2048 + z) = 2048 + z).
    { unfold i16, signed, wrap.
      change (2 ^ 16) with 65536. change (2 ^ (16 - 1)) with 32768.
      rewrite Z.mod_small by lia.
      destruct (2048 + z <? 32768) eqn:C; [reflexivity|].
      apply Z.ltb_ge in C. lia. }
    rewrite E.
    destruct (2048 + z <? 0) eqn:C1; [apply Z.ltb_lt in C1; lia|].
    destruct (2048 + z >? 4095) eqn:C2; [|reflexivity].
    rewrite Z.gtb_ltb in C2. apply Z.ltb_lt in C2. lia.
  - intros fuel f t st st' d H.
    rewrite (generate_tone_emits fuel f t st st' d H).
    split; [reflexivity|]. apply duty_range, sine_value_range.
Qed.

(** *** Calls that do not advance the phase *)

(** C7: a call at the timestamp of the previous update (elapsed == 0)
    leaves the phase as it is and writes nothing, for every frequency and
    every starting state; so does a second such call right after it. *)
Theorem zero_elapsed_keeps_phase (fuel : nat) (f t : Z) (st : oscillator) :
  u32 (t - last_time st) = 0 ->
  exists st1 st2,
    generate_tone fuel f t st = Some (st1, None)
    /\ generate_tone fuel f t st1 = Some (st2, None)
    /\ phase st1 = phase st
    /\ phase st2 = phase st1.
Proof.
  intros E.
  exists {| phase := phase st; last_time := t |}, {| phase := phase st; last_time := t |}.
  unfold Sketch.generate_tone. cbn [phase last_time]. rewrite E, Z.sub_diag.
  repeat split; reflexivity.
Qed.

Lemma zero_frequency_idle fuel t st :
  generate_tone fuel 0 t st
  = Some (if u32 (t - last_time st) =? 0
          then {| phase := phase st; last_time := t |} else st, None).
Proof.
  unfold Sketch.generate_tone. cbn [Z.gtb Z.compare]. rewrite andb_false_r.
  destruct (u32 (t - last_time st) =? 0); reflexivity.
Qed.

Lemma tone_call_tracks fuel c b b' :
  audio_out b = None \/ tracks b ->
  tone_call fuel c b = Some b' ->
  audio_out b' = None \/ tracks b'.
Proof.
  unfold Sketch.tone_call, Sketch.tracks. intros Hb.
  destruct (generate_tone fuel (frequency c) (at_micros c) (osc b)) as [[o [d|]]|] eqn:G;
    try discriminate; intros H; injection H as <-; cbn [audio_out osc].
  - right. f_equal. exact (generate_tone_emits _ _ _ _ _ _ G).
  - revert G. unfold Sketch.generate_tone.
    destruct ((u32 (at_micros c - last_time (osc b)) >? 0) && (frequency c >? 0)).
    + destruct (wrap_phase fuel _); discriminate.
    + destruct (u32 (at_micros c - last_time (osc b)) =? 0);
        intros G; injection G as <-; exact Hb.
Qed.

Lemma tone_calls_track fuel cs : forall b trace,
  audio_out b = None \/ tracks b ->
  tone_calls fuel cs b = Some trace ->
  Forall (fun b' => audio_out b' = None \/ tracks b') trace.
Proof.
  induction cs as [|c rest IH]; intros b trace Hb; cbn [Sketch.tone_calls].
  - intros H. injection H as <-. constructor.
  - destruct (tone_call fuel c b) as [b1|] eqn:E1; [|discriminate].
    destruct (tone_calls fuel rest b1) as [l|] eqn:E2; [|discriminate].
    intros H. injection H as <-.
    pose proof (tone_call_tracks fuel c b b1 Hb E1) as H1.
    constructor; [exact H1 | exact (IH b1 l H1 E2)].
Qed.

(** C8, amended: with a zero frequency the call leaves the phase where it
    is and writes no sample; the pin keeps the duty it had, which is the
    sample of the current phase as soon as one sample has been written (in
    every state reached from power-on the pin was never written or holds
    the sample of the current phase). *)
Theorem zero_frequency_holds_output (fuel : nat) (c : call) (b : output_stage) :
  frequency c = 0 ->
  (exists b',
      tone_call fuel c b = Some b'
      /\ (exists o, generate_tone fuel 0 (at_micros c) (osc b) = Some (o, None))
      /\ phase (osc b') = phase (osc b)
      /\ audio_out b' = audio_out b
      /\ (tracks b -> tracks b'))
  /\ (forall fuel' cs trace,
        tone_calls fuel' cs booted = Some trace ->
        Forall (fun b' => audio_out b' = None \/ tracks b') trace).
Proof.
  intros F. split.
  - unfold Sketch.tone_call. rewrite F, zero_frequency_idle.
    eexists. split; [reflexivity|]. split; [eexists; reflexivity|].
    cbn [osc audio_out]. unfold Sketch.tracks. cbn [osc audio_out].
    destruct (u32 (at_micros c - last_time (osc b)) =? 0); cbn [phase];
      repeat split; auto.
  - intros fuel' cs trace H.
    apply (tone_calls_track fuel' cs booted trace); [left; reflexivity | exact H].
Qed.

(** C10: a call with a zero frequency and a nonzero elapsed time changes
    nothing, neither the phase nor [last_time], and writes no sample, so
    any number of such calls leaves the state as it was; the first call
    with a nonzero frequency then measures its elapsed time from the old
    [last_time] and advances the phase by 2 pi * frequency * that whole
    time (before wrapping). *)
Theorem zero_frequency_accumulates_time (fuel : nat) (t1 : Z) (st : oscillator) :
  0 < u32 (t1 - last_time st) ->
  exists st1,
    generate_tone fuel 0 t1 st = Some (st1, None)
    /\ st1 = st
    /\ (forall b cs,
          osc b = st ->
          Forall (fun c => frequency c = 0 /\ 0 < u32 (at_micros c - last_time st)) cs ->
          tone_calls fuel cs b = Some (repeat b (length cs)))
    /\ (forall fuel2 f t2,
          0 < f -> 0 < u32 (t2 - last_time st) ->
          generate_tone fuel2 f t2 st1
          = match
              wrap_phase fuel2
                (add (phase st)
                   (mul (mul TWO_PI (of_int f))
                      (div (of_int (u32 (t2 - last_time st))) (of_int 1000000))))
            with
            | Some ph =>
                Some ({| phase := ph; last_time := t2 |}, Some (duty (sine_value ph)))
            | None => None
            end).
Proof.
  intros E. exists st.
  assert (Idle : forall t, 0 < u32 (t - last_time st) ->
                           generate_tone fuel 0 t st = Some (st, None)).
  { intros t Ht. rewrite zero_frequency_idle.
    destruct (u32 (t - last_time st) =? 0) eqn:Z; [|reflexivity].
    apply Z.eqb_eq in Z. lia. }
  split; [apply Idle; exact E|]. split; [reflexivity|]. split.
  - intros b cs Hb Hcs. induction Hcs as [|c rest [F T] _ IH]; [reflexivity|].
    cbn [Sketch.tone_calls length repeat]. unfold Sketch.tone_call at 1.
    rewrite F, Hb, (Idle _ T), <- Hb.
    replace {| osc := osc b; audio_out := audio_out b |} with b by (destruct b; reflexivity).
    rewrite IH. reflexivity.
  - intros fuel2 f t2 Hf Ht. unfold Sketch.generate_tone, phase_increment.
    replace (u32 (t2 - last_time st) >? 0) with true
      by (symmetry; rewrite Z.gtb_ltb; apply Z.ltb_lt; exact Ht).
    replace (f >? 0) with true
      by (symmetry; rewrite Z.gtb_ltb; apply Z.ltb_lt; exact Hf).
    reflexivity.
Qed.

(** *** The phase invariant *)

(** One call keeps the phase wrapped, and returns. *)
Lemma generate_tone_wrapped f t st :
  wrapped (phase st) -> is_u32 f ->
  exists fuel0 st' out,
    (forall fuel, (fuel0 <= fuel)%nat -> generate_tone fuel f t st = Some (st', out))
    /\ wrapped (phase st').
Proof.
  intros W Hf. unfold Sketch.generate_tone.
  pose proof (u32_range (t - last_time st)) as He.
  set (elapsed := u32 (t - last_time st)) in *.
  unfold is_u32 in Hf, He.
  destruct ((elapsed >? 0) && (f >? 0)) eqn:B.
  - apply andb_true_iff in B. destruct B as [B1 B2].
    rewrite Z.gtb_ltb in B1, B2. apply Z.ltb_lt in B1, B2.
    destruct (phase_increment_normal f elapsed) as [Ni Ei];
      [change (2 ^ 32) with 4294967296; lia .. |].
    destruct (advance_normal (phase st) _ W Ni Ei) as [Na Ea].
    set (y := add (phase st) (phase_increment f elapsed)) in *.
    pose proof (normal_ulps_pos y Na) as Uy.
    destruct (wrap_phase_terminates (ulps y) ltac:(lia) y eq_refl) as (fuel0 & r & Hr & Wr).
    { right. split; assumption. }
    exists fuel0, {| phase := r; last_time := t |}, (Some (duty (sine_value r))).
    split; [|exact Wr]. intros fuel Hfuel. rewrite (Hr fuel Hfuel). reflexivity.
  - destruct (elapsed =? 0).
    + exists O, {| phase := phase st; last_time := t |}, None. split; [reflexivity | exact W].
    + exists O, st, None. split; [reflexivity | exact W].
Qed.

Lemma tone_calls_wrapped cs : forall b,
  wrapped (phase (osc b)) ->
  Forall (fun c => is_u32 (frequency c)) cs ->
  exists fuel0 trace,
    (forall fuel, (fuel0 <= fuel)%nat -> tone_calls fuel cs b = Some trace)
    /\ length trace = length cs
    /\ Forall (fun b' => wrapped (phase (osc b'))) trace.
Proof.
  induction cs as [|c rest IH]; intros b W Hcs.
  - exists O, []. repeat split; constructor.
  - inversion Hcs as [|? ? Hc Hrest]; subst.
    destruct (generate_tone_wrapped (frequency c) (at_micros c) (osc b) W Hc)
      as (fuel1 & o & out & H1 & W1).
    set (b1 := {| osc := o;
                  audio_out := match out with Some d => Some d | None => audio_out b end |}).
    destruct (IH b1 W1 Hrest) as (fuel2 & trace & H2 & L2 & F2).
    exists (Nat.max fuel1 fuel2), (b1 :: trace). split; [|split].
    + intros fuel Hfuel. cbn [Sketch.tone_calls]. unfold Sketch.tone_call at 1.
      rewrite (H1 fuel) by lia.
      replace (match out with
               | Some d => Some {| osc := o; audio_out := Some d |}
               | None => Some {| osc := o; audio_out := audio_out b |}
               end) with (Some b1) by (unfold b1; destruct out; reflexivity).
      rewrite (H2 fuel) by lia. reflexivity.
    + cbn [length]. rewrite L2. reflexivity.
    + constructor; [exact W1 | exact F2].
Qed.

(** C4: from power-on (phase 0), for every sequence of calls of
    [generate_tone], with any clock readings and any [uint32_t] frequencies,
    each call returns once the wrap loop is given enough iterations, and
    after each call the phase is at least 0 and below [2.0 * PI] (which is
    below 2 pi), by the comparisons of C and as exact values: the repeated
    subtraction removes every whole turn. *)
Theorem phase_stays_in_period (cs : list call) :
  Forall (fun c => is_u32 (frequency c)) cs ->
  exists fuel0 trace,
    (forall fuel, (fuel0 <= fuel)%nat -> tone_calls fuel cs booted = Some trace)
    /\ length trace = length cs
    /\ Forall (fun b => in_period (phase (osc b))
                        /\ 0 <= ulps (phase (osc b)) < ulps TWO_PI) trace.
Proof.
  intros Hcs.
  destruct (tone_calls_wrapped cs booted) as (fuel0 & trace & H & L & F).
  - split; [left; reflexivity | reflexivity].
  - exact Hcs.
  - exists fuel0, trace. repeat split; try assumption.
    eapply Forall_impl; [|exact F]. intros b W.
    split; [apply wrapped_in_period | apply wrapped_value]; exact W.
Qed.

(** The sketch as a whole: [loop] always returns, keeps the frequency
    between 200 and 2000 (or at the initial 440) and the phase within the
    period. *)
Lemma loop_invariant i s :
  200 <= current_frequency s <= 2000 ->
  wrapped (phase (osc (tone s))) ->
  exists fuel0 s',
    (forall fuel, (fuel0 <= fuel)%nat ->
                  Sketch.loop sin int16_of_unrepresentable fuel i s = Some s')
    /\ 200 <= current_frequency s' <= 2000
    /\ wrapped (phase (osc (tone s'))).
Proof.
  intros Hf W. unfold Sketch.loop.
  pose proof (map_frequency_range_any (u16 (analog_read i))) as R.
  set (s1 := if retune_condition _ _ _ _ then _ else s).
  assert (H1 : 200 <= current_frequency s1 <= 2000 /\ tone s1 = tone s).
  { unfold s1. destruct (retune_condition _ _ _ _); cbn; auto. }
  destruct H1 as [F1 T1]. rewrite T1.
  destruct (generate_tone_wrapped (current_frequency s1) (micros_at_tone i) (osc (tone s)) W)
    as (fuel0 & o & out & H & Wo); [unfold is_u32; lia|].
  exists fuel0. eexists. split.
  - intros fuel Hfuel. unfold Sketch.tone_call. cbn [frequency at_micros].
    rewrite (H fuel Hfuel).
    instantiate (1 := {| current_frequency := current_frequency s1;
                         last_update := last_update s1;
                         tone := {| osc := o;
                                    audio_out := match out with
                                                 | Some d => Some d
                                                 | None => audio_out (tone s)
                                                 end |} |}).
    destruct out; reflexivity.
  - cbn. split; [exact F1 | exact Wo].
Qed.

Lemma loops_invariant polls : forall s,
  200 <= current_frequency s <= 2000 ->
  wrapped (phase (osc (tone s))) ->
  exists fuel0 s',
    (forall fuel, (fuel0 <= fuel)%nat ->
                  Sketch.loops sin int16_of_unrepresentable fuel polls s = Some s')
    /\ 200 <= current_frequency s' <= 2000
    /\ in_period (phase (osc (tone s'))).
Proof.
  induction polls as [|i rest IH]; intros s Hf W.
  - exists O, s. repeat split; try lia. apply wrapped_in_period, W. apply wrapped_in_period, W.
  - destruct (loop_invariant i s Hf W) as (fuel1 & s1 & H1 & F1 & W1).
    destruct (IH s1 F1 W1) as (fuel2 & s2 & H2 & F2 & P2).
    exists (Nat.max fuel1 fuel2), s2. split; [|split; assumption].
    intros fuel Hfuel. cbn [Sketch.loops].
    rewrite (H1 fuel) by lia. apply H2. lia.
Qed.

End Tone.

(** *** Instances *)

(** The model computes what the hardware computes: 2 pi * 440 Hz * 1 ms,
    and twenty periods at 2 kHz, which the loop unwinds in 19 steps. *)
Example TWO_PI_is_twice_PI :
  TWO_PI = S754_finite false 7074237752028440 (-50)
  /\ of_int 1000000 = S754_finite false 8589934592000000 (-33).
Proof. split; reflexivity. Qed.

Example phase_increment_440Hz_1ms :
  phase_increment 440 1000 = S754_finite false 6225329221785028 (-51).
Proof. vm_compute. reflexivity. Qed.

Example wrap_phase_19_turns :
  wrap_phase 18 (add zero (phase_increment 2000 10000)) = None
  /\ wrap_phase 19 (add zero (phase_increment 2000 10000))
     = Some (S754_finite false 7074237752028368 (-50)).
Proof. split; vm_compute; reflexivity. Qed.

Lemma sample_within_dac_range_witness :
  Sketch.sine_value (fun _ => of_int 1) (fun _ => 0) zero = 2048 + 2047.
Proof.
  apply (proj1 (proj2 (proj2
           (sample_within_dac_range (fun _ => of_int 1) (fun _ => 0) zero)))).
  - reflexivity.
  - lia.
Defined.

Lemma zero_elapsed_keeps_phase_witness :
  exists st1 st2,
    Sketch.generate_tone (fun _ => zero) (fun _ => 0) 3 440 0 power_on = Some (st1, None)
    /\ Sketch.generate_tone (fun _ => zero) (fun _ => 0) 3 440 0 st1 = Some (st2, None)
    /\ phase st1 = phase power_on
    /\ phase st2 = phase st1.
Proof.
  apply (zero_elapsed_keeps_phase (fun _ => zero) (fun _ => 0) 3 440 0 power_on).
  reflexivity.
Defined.

(** C8, as stated, fails on [generate_tone]: called with a zero frequency at
    power-on it writes nothing, and the pin holds no sample, not the one the
    phase maps to. *)
Lemma zero_frequency_from_power_on :
  ~ (forall b',
       Sketch.tone_call (fun _ => zero) (fun _ => 0) 1
         {| frequency := 0; at_micros := 1000 |} booted = Some b' ->
       audio_out b'
       = Some (duty (Sketch.sine_value (fun _ => zero) (fun _ => 0) (phase (osc b'))))).
Proof.
  intros H. specialize (H booted eq_refl). discriminate H.
Qed.

Lemma zero_frequency_holds_output_witness :
  exists b',
    Sketch.tone_call (fun _ => zero) (fun _ => 0) 1
      {| frequency := 0; at_micros := 1000 |} booted = Some b'
    /\ (exists o, Sketch.generate_tone (fun _ => zero) (fun _ => 0) 1 0 1000 (osc booted)
                  = Some (o, None))
    /\ phase (osc b') = phase (osc booted)
    /\ audio_out b' = audio_out booted
    /\ (Sketch.tracks (fun _ => zero) (fun _ => 0) booted
        -> Sketch.tracks (fun _ => zero) (fun _ => 0) b').
Proof.
  apply (zero_frequency_holds_output (fun _ => zero) (fun _ => 0) 1
           {| frequency := 0; at_micros := 1000 |} booted).
  reflexivity.
Defined.

Lemma zero_frequency_accumulates_time_witness :
  exists st1,
    Sketch.generate_tone (fun _ => zero) (fun _ => 0) 1 0 500 power_on = Some (st1, None)
    /\ st1 = power_on.
Proof.
  destruct (zero_frequency_accumulates_time (fun _ => zero) (fun _ => 0) 1 500 power_on)
    as (st1 & H1 & H2 & _).
  - reflexivity.
  - exists st1. split; assumption.
Defined.

Lemma phase_stays_in_period_witness :
  exists fuel0 trace,
    (forall fuel, (fuel0 <= fuel)%nat ->
       Sketch.tone_calls (fun _ => zero) (fun _ => 0) fuel
         [ {| frequency := 440; at_micros := 1000 |};
           {| frequency := 0; at_micros := 2000 |};
           {| frequency := 2000; at_micros := 12000 |} ] booted = Some trace)
    /\ length trace = 3%nat
    /\ Forall (fun b => in_period (phase (osc b))
                        /\ 0 <= ulps (phase (osc b)) < ulps TWO_PI) trace.
Proof.
  apply (phase_stays_in_period (fun _ => zero) (fun _ => 0)
           [ {| frequency := 440; at_micros := 1000 |};
             {| frequency := 0; at_micros := 2000 |};
             {| frequency := 2000; at_micros := 12000 |} ]).
  repeat constructor; cbn; lia.
Defined.

End SketchFacts.

(** * Part III: the rest of the code *)

(** ** Resolution of the mapping and the hysteresis *)

Module MappingMore.

Lemma linear_div x :
  4095 * (linear x - 200) <= x * 1800 < 4095 * (linear x - 200) + 4095.
Proof.
  unfold linear.
  pose proof (Z.div_mod (x * 1800) 4095 ltac:(lia)).
  pose proof (Z.mod_pos_bound (x * 1800) 4095 ltac:(lia)).
  lia.
Qed.

Lemma linear_step s : 0 <= linear (s + 1) - linear s <= 1.
Proof. pose proof (linear_div s). pose proof (linear_div (s + 1)). lia. Qed.

(** X1: raising the ADC code by one raises the frequency by 0 or 1 Hz, for
    every [uint16_t] code and in both variants. *)
Theorem adjacent_samples_one_hertz (s : Z) :
  0 <= s < 65535 ->
  0 <= map_frequency (s + 1) - map_frequency s <= 1
  /\ 0 <= Temperature_To_Frequency (s + 1) - Temperature_To_Frequency s <= 1.
Proof.
  intros H.
  change (Temperature_To_Frequency (s + 1)) with (map_frequency (s + 1)).
  change (Temperature_To_Frequency s) with (map_frequency s).
  rewrite !map_frequency_clamped by (unfold is_u16; lia).
  pose proof (linear_step s). lia.
Qed.

(** X2: every frequency from 200 to 2000 Hz is the image of a nominal
    sample; the least such sample is the rounded-up inverse of the linear
    formula. *)
Theorem every_frequency_is_reached (f : Z) :
  200 <= f <= 2000 ->
  let s := ((f - 200) * 4095 + 1799) / 1800 in
  0 <= s <= 4095
  /\ map_frequency s = f
  /\ Temperature_To_Frequency s = f
  /\ (forall s', 0 <= s' < s -> map_frequency s' < f).
Proof.
  intros H s.
  pose proof (Z.div_mod ((f - 200) * 4095 + 1799) 1800 ltac:(lia)) as D.
  pose proof (Z.mod_pos_bound ((f - 200) * 4095 + 1799) 1800 ltac:(lia)) as M.
  fold s in D.
  assert (R : 0 <= s <= 4095) by lia.
  pose proof (linear_div s) as L.
  assert (E : map_frequency s = f).
  { rewrite map_frequency_clamped by (unfold is_u16; lia). lia. }
  repeat split; try lia; try exact E.
  intros s' Hs'. rewrite map_frequency_clamped by (unfold is_u16; lia).
  pose proof (linear_div s'). lia.
Qed.

(** X3: two ADC codes at most 11 apart never map to frequencies that pass
    the magnitude test, wherever they lie; two nominal codes at least 14
    apart always do. *)
Theorem jitter_below_hysteresis (a b : Z) :
  is_u16 a -> is_u16 b ->
  (Z.abs (a - b) <= 11 ->
   changed_significantly (map_frequency a) (map_frequency b) = false)
  /\ (a <= 4095 -> b <= 4095 -> 14 <= Z.abs (a - b) ->
      changed_significantly (map_frequency a) (map_frequency b) = true).
Proof.
  intros Ha Hb. unfold is_u16 in *.
  pose proof (map_frequency_range_any a) as Ra.
  pose proof (map_frequency_range_any b) as Rb.
  unfold changed_significantly. rewrite !i32_small by lia.
  rewrite !map_frequency_clamped by (unfold is_u16; lia).
  pose proof (linear_div a). pose proof (linear_div b). split.
  - intros D. rewrite Z.gtb_ltb. apply Z.ltb_ge. lia.
  - intros A B D. rewrite Z.gtb_ltb. apply Z.ltb_lt. lia.
Qed.

Lemma adjacent_samples_one_hertz_witness :
  0 <= map_frequency (100 + 1) - map_frequency 100 <= 1.
Proof. apply (adjacent_samples_one_hertz 100). lia. Defined.

Lemma every_frequency_is_reached_witness :
  map_frequency (((1100 - 200) * 4095 + 1799) / 1800) = 1100.
Proof. exact (proj1 (proj2 (every_frequency_is_reached 1100 ltac:(lia)))). Defined.

Lemma jitter_below_hysteresis_witness :
  changed_significantly (map_frequency 1000) (map_frequency 1011) = false.
Proof.
  apply (proj1 (jitter_below_hysteresis 1000 1011 ltac:(unfold is_u16; lia)
                  ltac:(unfold is_u16; lia))).
  lia.
Defined.

End MappingMore.

(** ** The loop, the timer and the delay of [main.c] *)

Module FirmwareMore.

Import Board Firmware FirmwareFacts FirmwareLoop MappingMore.

Lemma Delay_ms_from_count ms (k : nat) : forall fuel i,
  0 <= i -> i + Z.of_nat k = u32 (ms * 8400) ->
  Delay_ms_from fuel ms i = if (k <=? fuel)%nat then Some (Z.of_nat k) else None.
Proof.
  pose proof (u32_range (ms * 8400)) as B. unfold is_u32 in B.
  induction k as [|k IH]; intros fuel i Hi E.
  - replace (0 <=? fuel)%nat with true by reflexivity.
    destruct fuel; cbn [Delay_ms_from];
      replace (i <? u32 (ms * 8400)) with false by (symmetry; apply Z.ltb_ge; lia);
      reflexivity.
  - destruct fuel as [|fuel]; cbn [Delay_ms_from];
      replace (i <? u32 (ms * 8400)) with true by (symmetry; apply Z.ltb_lt; lia).
    + reflexivity.
    + rewrite (u32_small (i + 1)) by (unfold is_u32; lia).
      rewrite (IH fuel (i + 1)) by lia.
      change (S k <=? S fuel)%nat with (k <=? fuel)%nat.
      destruct (k <=? fuel)%nat; [|reflexivity].
      cbn [option_map]. f_equal. lia.
Qed.

(** X7: [Delay_ms] ends after exactly [(ms * 8400) mod 2^32] increments,
    no fewer steps suffice; that is 8400 per millisecond up to 511305 ms
    and strictly fewer beyond, where the product wraps. *)
Theorem Delay_ms_iterations (ms : Z) (fuel : nat) :
  let n := u32 (ms * 8400) in
  Delay_ms fuel ms = (if (Z.to_nat n <=? fuel)%nat then Some n else None)
  /\ (0 <= ms <= 511305 -> n = 8400 * ms)
  /\ (511305 < ms -> n < 8400 * ms).
Proof.
  intros n. pose proof (u32_range (ms * 8400)) as B. unfold is_u32 in B. fold n in B.
  split; [|split].
  - unfold Delay_ms. rewrite (Delay_ms_from_count ms (Z.to_nat n)) by lia.
    rewrite Z2Nat.id by lia. reflexivity.
  - intros H. unfold n. rewrite u32_small by (unfold is_u32; lia). lia.
  - intros H. lia.
Qed.

Lemma iteration_step dr st :
  coherent st ->
  exists st',
    iteration dr st = Some st'
    /\ coherent st'
    /\ Z.abs (current_frequency st'
              - Temperature_To_Frequency (ADC_Read_Temperature dr)) <= 5
    /\ (changed_significantly (Temperature_To_Frequency (ADC_Read_Temperature dr))
          (current_frequency st) = false -> st' = st).
Proof.
  intros (Hc & Ha & Hh). unfold iteration.
  set (new := Temperature_To_Frequency (ADC_Read_Temperature dr)).
  pose proof (map_frequency_range_any (ADC_Read_Temperature dr)) as R.
  change (map_frequency (ADC_Read_Temperature dr)) with new in R.
  pose proof (changed_significantly_spec (current_frequency st) new ltac:(lia) ltac:(lia)) as S.
  destruct (changed_significantly new (current_frequency st)) eqn:C.
  - destruct (TIM2_Init_defined new ltac:(lia)) as [p Ep]. rewrite Ep.
    eexists. split; [reflexivity|]. cbn [current_frequency TIM2_ARR timer_calls hd].
    split; [unfold coherent; cbn [current_frequency TIM2_ARR timer_calls hd];
            repeat split; try lia; try reflexivity; assumption|].
    split; [lia | discriminate].
  - exists st. split; [reflexivity|]. split; [exact (conj Hc (conj Ha Hh))|].
    split; [|reflexivity].
    destruct (Z_le_gt_dec (Z.abs (current_frequency st - new)) 5) as [|G]; [assumption|].
    assert (F : false = true) by (apply S; lia). discriminate F.
Qed.

Lemma startup_coherent : exists st, startup = Some st /\ coherent st.
Proof.
  eexists. split; [reflexivity|]. unfold coherent. cbn. repeat split; lia.
Qed.

Lemma iterations_coherent readings : forall st,
  coherent st -> exists st', iterations readings st = Some st' /\ coherent st'.
Proof.
  induction readings as [|r rest IH]; intros st Hs.
  - exists st. split; [reflexivity | assumption].
  - cbn [iterations]. destruct (iteration_step r st Hs) as (st1 & E & Hs1 & _).
    rewrite E. apply IH. exact Hs1.
Qed.

Lemma iterations_app l1 : forall l2 st,
  iterations (l1 ++ l2) st
  = match iterations l1 st with
    | Some st' => iterations l2 st'
    | None => None
    end.
Proof.
  induction l1 as [|r rest IH]; intros l2 st; cbn [iterations app]; [reflexivity|].
  destruct (iteration r st); [apply IH | reflexivity].
Qed.

(** X5: after every iteration of [main], the frequency in force is within
    5 Hz of the frequency of the reading just taken, lies between 200 and
    2000, and the timer is programmed for it. *)
Theorem main_tracks_last_reading (readings : list Z) (last : Z) :
  exists st,
    main (readings ++ [last]) = Some st
    /\ Z.abs (current_frequency st
              - Temperature_To_Frequency (ADC_Read_Temperature last)) <= 5
    /\ 200 <= current_frequency st <= 2000
    /\ TIM2_Init (current_frequency st) = Some (TIM2_ARR st)
    /\ hd 0 (timer_calls st) = current_frequency st.
Proof.
  unfold main. destruct startup_coherent as (st0 & E0 & C0). rewrite E0.
  rewrite iterations_app.
  destruct (iterations_coherent readings st0 C0) as (st1 & E1 & C1). rewrite E1.
  cbn [iterations].
  destruct (iteration_step last st1 C1) as (st2 & E2 & (Hc & Ha & Hh) & T & _).
  rewrite E2. exists st2. repeat split; try assumption; lia.
Qed.

Lemma jitter_keeps_frequency a b :
  is_u16 a -> is_u16 b -> Z.abs (a - b) <= 11 ->
  changed_significantly (Temperature_To_Frequency a) (Temperature_To_Frequency b) = false.
Proof.
  intros Ha Hb D. unfold is_u16 in *.
  change (Temperature_To_Frequency a) with (map_frequency a).
  change (Temperature_To_Frequency b) with (map_frequency b).
  pose proof (map_frequency_range_any a) as Ra.
  pose proof (map_frequency_range_any b) as Rb.
  unfold changed_significantly. rewrite !i32_small by lia.
  rewrite !map_frequency_clamped by (unfold is_u16; lia).
  pose proof (linear_div a). pose proof (linear_div b).
  rewrite Z.gtb_ltb. apply Z.ltb_ge. lia.
Qed.

(** X6: once the frequency in force is the one of ADC code [a], readings
    that stay within 11 codes of [a] leave [main] in the same state: no
    call of [TIM2_Init], however long the input jitters. *)
Theorem main_quiet_under_jitter (a : Z) (readings : list Z) (st : registers) :
  is_u16 a ->
  current_frequency st = Temperature_To_Frequency a ->
  Forall (fun dr => Z.abs (ADC_Read_Temperature dr - a) <= 11) readings ->
  iterations readings st = Some st.
Proof.
  intros Ha Hc H. induction H as [|dr rest D _ IH]; [reflexivity|].
  cbn [iterations]. unfold iteration. rewrite Hc.
  rewrite jitter_keeps_frequency; [exact IH | apply u16_range | exact Ha | exact D].
Qed.

(** X4: the period that [TIM2_Init] computes.  Up to the timer clock the
    auto-reload value [p] is the largest with [(p + 1) * frequency] not
    above 84 MHz, so the timer is never slower than asked; above the timer
    clock the subtraction wraps to 0xFFFFFFFF; a zero frequency divides by
    zero.  For every ADC reading the value lies in 41999..419999. *)
Theorem TIM2_Init_period_brackets (frequency : Z) :
  (frequency = 0 -> TIM2_Init frequency = None)
  /\ (0 < frequency <= 84000000 ->
      exists p, TIM2_Init frequency = Some p
                /\ 0 <= p < 84000000
                /\ (p + 1) * frequency <= 84000000 < (p + 2) * frequency)
  /\ (84000000 < frequency -> TIM2_Init frequency = Some 4294967295)
  /\ (forall adc, exists p,
        TIM2_Init (Temperature_To_Frequency adc) = Some p /\ 41999 <= p <= 419999).
Proof.
  assert (Pos : forall f, 0 < f <= 84000000 ->
            exists p, TIM2_Init f = Some p
                      /\ p = 84000000 / f - 1
                      /\ 0 <= p < 84000000
                      /\ (p + 1) * f <= 84000000 < (p + 2) * f).
  { intros f H. unfold TIM2_Init.
    replace (f =? 0) with false by (symmetry; apply Z.eqb_neq; lia).
    pose proof (Z.div_mod 84000000 f ltac:(lia)) as D.
    pose proof (Z.mod_pos_bound 84000000 f ltac:(lia)) as M.
    set (q := 84000000 / f) in *.
    assert (Q : 1 <= q <= 84000000) by nia.
    rewrite (u32_small q) by (unfold is_u32; lia).
    rewrite (u32_small (q - 1)) by (unfold is_u32; lia).
    exists (q - 1). repeat split; try lia; nia. }
  repeat apply conj.
  - intros ->. reflexivity.
  - intros H. destruct (Pos frequency H) as (p & E & _ & R & B). exists p. auto.
  - intros H. unfold TIM2_Init.
    replace (frequency =? 0) with false by (symmetry; apply Z.eqb_neq; lia).
    rewrite Z.div_small by lia. reflexivity.
  - intros adc. pose proof (map_frequency_range_any adc) as R.
    change (map_frequency adc) with (Temperature_To_Frequency adc) in R.
    destruct (Pos (Temperature_To_Frequency adc) ltac:(lia)) as (p & E & V & _ & B).
    exists p. split; [exact E|]. nia.
Qed.

Lemma Delay_ms_iterations_witness : u32 (100 * 8400) = 8400 * 100.
Proof. apply (proj1 (proj2 (Delay_ms_iterations 100 0))). lia. Defined.

Lemma main_quiet_under_jitter_witness :
  iterations [2050; 2040; 2059]
    {| current_frequency := 1100; TIM2_ARR := 76362; timer_calls := [1100; 440] |}
  = Some {| current_frequency := 1100; TIM2_ARR := 76362; timer_calls := [1100; 440] |}.
Proof.
  apply (main_quiet_under_jitter 2048).
  - unfold is_u16. lia.
  - reflexivity.
  - repeat constructor; vm_compute; discriminate.
Defined.

Lemma TIM2_Init_period_brackets_witness :
  exists p, Firmware.TIM2_Init 440 = Some p
            /\ 0 <= p < 84000000
            /\ (p + 1) * 440 <= 84000000 < (p + 2) * 440.
Proof. apply (proj1 (proj2 (TIM2_Init_period_brackets 440))). lia. Defined.

End FirmwareMore.

(** ** The peripheral registers *)

Module BoardFacts.

Import Board.

Lemma u32_bit x n : 0 <= n < 32 -> Z.testbit (u32 x) n = Z.testbit x n.
Proof.
  intros H. unfold u32, wrap. apply Z.mod_pow2_bits_low. lia.
Qed.

Lemma u32_bit_high x n : 32 <= n -> Z.testbit (u32 x) n = false.
Proof.
  intros H. unfold u32, wrap. apply Z.mod_pow2_bits_high. lia.
Qed.

Lemma write_same r v s : write r v s r = u32 v.
Proof. unfold write. rewrite Z.eqb_refl. reflexivity. Qed.

Lemma index_inj r r' : index r = index r' -> r = r'.
Proof. destruct r, r'; cbn; intros H; try reflexivity; discriminate H. Qed.

Lemma write_other r r' v s : r' <> r -> write r v s r' = s r'.
Proof.
  intros H. unfold write. destruct (index r' =? index r) eqn:E; [|reflexivity].
  apply Z.eqb_eq in E. apply index_inj in E. contradiction.
Qed.

Lemma set_bits_bit r m s n :
  0 <= n < 32 ->
  Z.testbit (set_bits r m s r) n = Z.testbit (s r) n || Z.testbit m n.
Proof.
  intros H. unfold set_bits. rewrite write_same, u32_bit by assumption.
  apply Z.lor_spec.
Qed.

Lemma clear_bits_bit r m s n :
  0 <= n < 32 ->
  Z.testbit (clear_bits r m s r) n = Z.testbit (s r) n && negb (Z.testbit m n).
Proof.
  intros H. unfold clear_bits. rewrite write_same, u32_bit by assumption.
  rewrite Z.land_spec, u32_bit by assumption. rewrite Z.lnot_spec by lia. reflexivity.
Qed.

Lemma field_bit pos width reg n :
  0 <= pos -> 0 <= width -> 0 <= n ->
  Z.testbit (field pos width reg) n = Z.testbit reg (n + pos) && (n <? width).
Proof.
  intros Hp Hw Hn. unfold field.
  rewrite Z.land_spec, Z.shiftr_spec by assumption.
  destruct (n <? width) eqn:E.
  - apply Z.ltb_lt in E. rewrite Z.ones_spec_low by lia. reflexivity.
  - apply Z.ltb_ge in E. rewrite Z.ones_spec_high by lia. reflexivity.
Qed.

Lemma field_eq pos width a b :
  0 <= pos -> 0 <= width ->
  (forall n, pos <= n < pos + width -> Z.testbit a n = Z.testbit b n) ->
  field pos width a = field pos width b.
Proof.
  intros Hp Hw H. apply Z.bits_inj'. intros n Hn.
  rewrite !field_bit by assumption.
  destruct (n <? width) eqn:E; [|rewrite !andb_false_r; reflexivity].
  apply Z.ltb_lt in E. rewrite H by lia. reflexivity.
Qed.

Lemma below_32 n : 0 <= n < 32 -> In n (map Z.of_nat (seq 0 32)).
Proof.
  intros H. rewrite <- (Z2Nat.id n) by lia.
  apply in_map, in_seq. lia.
Qed.

(** Case analysis on a bit position below 32. *)
Ltac each_bit n H :=
  apply below_32 in H; cbn in H;
  repeat (destruct H as [<-|H]; [|]); [..|contradiction].

(** Bits of a register after a read-modify-write. *)
Ltac bits :=
  repeat first
    [ rewrite u32_bit by lia
    | rewrite Z.lor_spec
    | rewrite Z.land_spec
    | rewrite Z.lnot_spec by lia ].

(** Closes a goal on the bits once the position is known. *)
Ltac bit_done :=
  cbn;
  rewrite ?orb_true_r, ?orb_false_r, ?andb_true_r, ?andb_false_r;
  cbn; try reflexivity.

Lemma u32_eq a b :
  (forall n, 0 <= n < 32 -> Z.testbit (u32 a) n = Z.testbit (u32 b) n) ->
  u32 a = u32 b.
Proof.
  intros H. apply Z.bits_inj'. intros n Hn.
  destruct (Z_lt_le_dec n 32); [apply H; lia|].
  rewrite !u32_bit_high by lia. reflexivity.
Qed.

Lemma field_all pos width reg :
  0 <= pos -> 0 <= width ->
  (forall n, pos <= n < pos + width -> Z.testbit reg n = true) ->
  field pos width reg = Z.ones width.
Proof.
  intros Hp Hw H. apply Z.bits_inj'. intros n Hn.
  rewrite field_bit by assumption.
  destruct (n <? width) eqn:E.
  - apply Z.ltb_lt in E. rewrite H by lia. rewrite Z.ones_spec_low by lia. reflexivity.
  - apply Z.ltb_ge in E. rewrite Z.ones_spec_high by lia. apply andb_false_r.
Qed.

Lemma field_none pos width reg :
  0 <= pos -> 0 <= width ->
  (forall n, pos <= n < pos + width -> Z.testbit reg n = false) ->
  field pos width reg = 0.
Proof.
  intros Hp Hw H. apply Z.bits_inj'. intros n Hn.
  rewrite field_bit by assumption. rewrite Z.bits_0.
  destruct (n <? width) eqn:E; [|apply andb_false_r].
  apply Z.ltb_lt in E. rewrite H by lia. reflexivity.
Qed.

(** X8: whatever the registers held, [GPIO_Init] leaves PA0 and PA5 in
    analog mode and the GPIOA clock on, and changes no other pin mode, no
    other clock enable and no other register. *)
Theorem GPIO_Init_analog_pins (s : soc) :
  pin_mode (GPIO_Init s GPIOA_MODER) 0 = 3
  /\ pin_mode (GPIO_Init s GPIOA_MODER) 5 = 3
  /\ (forall pin, 0 <= pin < 16 -> pin <> 0 -> pin <> 5 ->
        pin_mode (GPIO_Init s GPIOA_MODER) pin = pin_mode (s GPIOA_MODER) pin)
  /\ Z.testbit (GPIO_Init s RCC_AHB1ENR) 0 = true
  /\ (forall n, 1 <= n < 32 ->
        Z.testbit (GPIO_Init s RCC_AHB1ENR) n = Z.testbit (s RCC_AHB1ENR) n)
  /\ (forall r, r <> GPIOA_MODER -> r <> RCC_AHB1ENR -> GPIO_Init s r = s r).
Proof.
  assert (M : forall n, 0 <= n < 32 ->
            Z.testbit (GPIO_Init s GPIOA_MODER) n
            = Z.testbit (s GPIOA_MODER) n
              || Z.testbit GPIO_MODER_MODER0 n || Z.testbit GPIO_MODER_MODER5 n).
  { intros n Hn.
    change (GPIO_Init s GPIOA_MODER)
      with (u32 (Z.lor (u32 (Z.lor (s GPIOA_MODER) GPIO_MODER_MODER0)) GPIO_MODER_MODER5)).
    bits. reflexivity. }
  assert (E : forall n, 0 <= n < 32 ->
            Z.testbit (GPIO_Init s RCC_AHB1ENR) n
            = Z.testbit (s RCC_AHB1ENR) n || Z.testbit RCC_AHB1ENR_GPIOAEN n).
  { intros n Hn.
    change (GPIO_Init s RCC_AHB1ENR)
      with (u32 (Z.lor (s RCC_AHB1ENR) RCC_AHB1ENR_GPIOAEN)).
    bits. reflexivity. }
  repeat apply conj.
  - apply (field_all 0 2); try lia. intros n Hn. rewrite M by lia.
    assert (H : 0 <= n < 32) by lia. each_bit n H; try lia; bit_done.
  - apply (field_all 10 2); try lia. intros n Hn. rewrite M by lia.
    assert (H : 0 <= n < 32) by lia. each_bit n H; try lia; bit_done.
  - intros pin Hp N0 N5. unfold pin_mode. apply field_eq; try lia.
    intros n Hn. rewrite M by lia.
    assert (H : 0 <= n < 32) by lia. each_bit n H; try lia; bit_done.
  - rewrite E by lia. bit_done.
  - intros n Hn. rewrite E by lia.
    assert (H : 0 <= n < 32) by lia. each_bit n H; try lia; bit_done.
  - intros r N1 N2. destruct r; try contradiction; reflexivity.
Qed.

(** Reads a register after an initialisation function. *)
Ltac read_reg :=
  cbv [GPIO_Init ADC1_Init DAC1_Init set_bits clear_bits write index Z.eqb Pos.eqb].

(** X9: whatever the registers held, [ADC1_Init] leaves the resolution
    field at 0 (12 bits), the sample time of channel 0 at 7, the sequence
    register at 0, ADON, CONT and SWSTART set and the ADC1 clock on; every
    other bit and register is as before. *)
Theorem ADC1_Init_configuration (s : soc) :
  field 24 2 (ADC1_Init s ADC1_CR1) = 0
  /\ field 0 3 (ADC1_Init s ADC1_SMPR2) = 7
  /\ ADC1_Init s ADC1_SQR3 = 0
  /\ (forall n, 0 <= n < 32 ->
        Z.testbit (ADC1_Init s ADC1_CR2) n
        = Z.testbit (s ADC1_CR2) n || (n =? 0) || (n =? 1) || (n =? 30))
  /\ (forall n, 0 <= n < 32 -> n <> 24 -> n <> 25 ->
        Z.testbit (ADC1_Init s ADC1_CR1) n = Z.testbit (s ADC1_CR1) n)
  /\ (forall n, 3 <= n < 32 ->
        Z.testbit (ADC1_Init s ADC1_SMPR2) n = Z.testbit (s ADC1_SMPR2) n)
  /\ (forall n, 0 <= n < 32 ->
        Z.testbit (ADC1_Init s RCC_APB2ENR) n
        = Z.testbit (s RCC_APB2ENR) n || (n =? 8))
  /\ (forall r, r <> RCC_APB2ENR -> r <> ADC1_CR1 -> r <> ADC1_CR2 ->
                r <> ADC1_SMPR2 -> r <> ADC1_SQR3 -> ADC1_Init s r = s r).
Proof.
  assert (C1 : forall n, 0 <= n < 32 ->
            Z.testbit (ADC1_Init s ADC1_CR1) n
            = Z.testbit (s ADC1_CR1) n && negb (Z.testbit ADC_CR1_RES n)).
  { intros n Hn. read_reg. bits. reflexivity. }
  assert (C2 : forall n, 0 <= n < 32 ->
            Z.testbit (ADC1_Init s ADC1_CR2) n
            = Z.testbit (s ADC1_CR2) n || Z.testbit ADC_CR2_ADON n
              || Z.testbit ADC_CR2_CONT n || Z.testbit ADC_CR2_SWSTART n).
  { intros n Hn. read_reg. bits. reflexivity. }
  assert (SM : forall n, 0 <= n < 32 ->
            Z.testbit (ADC1_Init s ADC1_SMPR2) n
            = Z.testbit (s ADC1_SMPR2) n
              || (Z.testbit ADC_SMPR2_SMP0_2 n || Z.testbit ADC_SMPR2_SMP0_1 n
                  || Z.testbit ADC_SMPR2_SMP0_0 n)).
  { intros n Hn. read_reg. bits. reflexivity. }
  assert (EN : forall n, 0 <= n < 32 ->
            Z.testbit (ADC1_Init s RCC_APB2ENR) n
            = Z.testbit (s RCC_APB2ENR) n || Z.testbit RCC_APB2ENR_ADC1EN n).
  { intros n Hn. read_reg. bits. reflexivity. }
  repeat apply conj.
  - apply field_none; try lia. intros n Hn. rewrite C1 by lia.
    assert (H : 0 <= n < 32) by lia. each_bit n H; try lia; bit_done.
  - apply (field_all 0 3); try lia. intros n Hn. rewrite SM by lia.
    assert (H : 0 <= n < 32) by lia. each_bit n H; try lia; bit_done.
  - reflexivity.
  - intros n Hn. rewrite C2 by lia. each_bit n Hn; bit_done.
  - intros n Hn N1 N2. rewrite C1 by lia. each_bit n Hn; try lia; bit_done.
  - intros n Hn. rewrite SM by lia.
    assert (H : 0 <= n < 32) by lia. each_bit n H; try lia; bit_done.
  - intros n Hn. rewrite EN by lia. each_bit n Hn; bit_done.
  - intros r N1 N2 N3 N4 N5. destruct r; try contradiction; reflexivity.
Qed.

Lemma DAC1_Init_CR s : DAC1_Init s DAC_CR = u32 (Z.lor (s DAC_CR) 85).
Proof. read_reg. apply u32_eq. intros n Hn. bits. each_bit n Hn; bit_done. Qed.

Lemma DAC1_Init_APB1ENR s :
  DAC1_Init s RCC_APB1ENR = u32 (Z.lor (s RCC_APB1ENR) RCC_APB1ENR_DACEN).
Proof. reflexivity. Qed.

(** X10: [DAC1_Init] only sets bits: EN1, TEN1, bit 4 and WAVE1 bit 6 in
    [DAC->CR], DACEN in [APB1ENR].  Bits already set survive, so the
    trigger selection reads 2 exactly when its other two bits were clear.
    Running it twice is running it once. *)
Theorem DAC1_Init_only_sets_bits (s : soc) :
  (forall n, 0 <= n < 32 ->
     Z.testbit (DAC1_Init s DAC_CR) n
     = Z.testbit (s DAC_CR) n || (n =? 0) || (n =? 2) || (n =? 4) || (n =? 6))
  /\ (field DAC_CR_TSEL1_Pos 3 (DAC1_Init s DAC_CR) = 2
      <-> Z.testbit (s DAC_CR) 3 = false /\ Z.testbit (s DAC_CR) 5 = false)
  /\ (forall n, 0 <= n < 32 ->
        Z.testbit (DAC1_Init s RCC_APB1ENR) n
        = Z.testbit (s RCC_APB1ENR) n || (n =? 29))
  /\ (forall r, r <> DAC_CR -> r <> RCC_APB1ENR -> DAC1_Init s r = s r)
  /\ (forall r, DAC1_Init (DAC1_Init s) r = DAC1_Init s r).
Proof.
  assert (CR : forall n, 0 <= n < 32 ->
            Z.testbit (DAC1_Init s DAC_CR) n
            = Z.testbit (s DAC_CR) n || (n =? 0) || (n =? 2) || (n =? 4) || (n =? 6)).
  { intros n Hn. rewrite DAC1_Init_CR. bits. each_bit n Hn; bit_done. }
  repeat apply conj.
  - apply CR.
  - intros H.
    assert (B3 : Z.testbit (field DAC_CR_TSEL1_Pos 3 (DAC1_Init s DAC_CR)) 0 = false)
      by (rewrite H; reflexivity).
    assert (B5 : Z.testbit (field DAC_CR_TSEL1_Pos 3 (DAC1_Init s DAC_CR)) 2 = false)
      by (rewrite H; reflexivity).
    unfold DAC_CR_TSEL1_Pos in *.
    rewrite field_bit in B3, B5 by lia.
    change (0 + 3) with 3 in B3. change (2 + 3) with 5 in B5.
    rewrite CR in B3, B5 by lia.
    change (3 =? 0) with false in B3. change (3 =? 2) with false in B3.
    change (3 =? 4) with false in B3. change (3 =? 6) with false in B3.
    change (5 =? 0) with false in B5. change (5 =? 2) with false in B5.
    change (5 =? 4) with false in B5. change (5 =? 6) with false in B5.
    rewrite !orb_false_r, andb_true_r in B3, B5. split; assumption.
  - intros [B3 B5]. unfold DAC_CR_TSEL1_Pos. apply Z.bits_inj'. intros n Hn.
    rewrite field_bit by lia.
    destruct (n <? 3) eqn:E; [|rewrite andb_false_r].
    + apply Z.ltb_lt in E. rewrite CR by lia.
      assert (D : n = 0 \/ n = 1 \/ n = 2) by lia.
      destruct D as [D|[D|D]]; subst n.
      * change (0 + 3) with 3. rewrite B3. reflexivity.
      * change (1 + 3) with 4. rewrite !orb_true_r. reflexivity.
      * change (2 + 3) with 5. rewrite B5. reflexivity.
    + apply Z.ltb_ge in E. symmetry. apply Z.bits_above_log2; cbn; lia.
  - intros n Hn. rewrite DAC1_Init_APB1ENR. bits. each_bit n Hn; bit_done.
  - intros r N1 N2. destruct r; try contradiction; reflexivity.
  - intros r. destruct r; try reflexivity.
    + rewrite !DAC1_Init_APB1ENR. apply u32_eq. intros n Hn. bits.
      each_bit n Hn; bit_done.
    + rewrite !DAC1_Init_CR. apply u32_eq. intros n Hn. bits.
      each_bit n Hn; bit_done.
Qed.

Lemma u32_idem x : u32 (u32 x) = u32 x.
Proof. unfold u32, wrap. apply Z.mod_mod. apply Z.pow_nonzero; lia. Qed.

Lemma TIM2_Init_period frequency :
  frequency <> 0 ->
  exists period, Firmware.TIM2_Init frequency = Some period /\ u32 period = period.
Proof.
  intros H. unfold Firmware.TIM2_Init.
  destruct (frequency =? 0) eqn:E; [apply Z.eqb_eq in E; contradiction|].
  eexists. split; [reflexivity | apply u32_idem].
Qed.

Ltac read_tim :=
  cbv [TIM2_Init set_bits clear_bits write index Z.eqb Pos.eqb].

(** X11: [TIM2_Init] on the registers.  For a nonzero frequency it stores
    the period in ARR and 0 in PSC, leaves the counter enabled, sets the
    update trigger bit and UG, turns the TIM2 clock on, and touches nothing
    else (the DAC, ADC and GPIO configuration in particular). *)
Theorem TIM2_Init_registers (frequency : Z) (s : soc) :
  (frequency = 0 -> TIM2_Init frequency s = None)
  /\ (frequency <> 0 ->
      exists period s',
        Firmware.TIM2_Init frequency = Some period
        /\ TIM2_Init frequency s = Some s'
        /\ s' TIM2_ARR = period
        /\ s' TIM2_PSC = 0
        /\ (forall n, 0 <= n < 32 ->
              Z.testbit (s' TIM2_CR1) n = Z.testbit (s TIM2_CR1) n || (n =? 0))
        /\ (forall n, 0 <= n < 32 ->
              Z.testbit (s' TIM2_CR2) n = Z.testbit (s TIM2_CR2) n || (n =? 5))
        /\ (forall n, 0 <= n < 32 ->
              Z.testbit (s' TIM2_EGR) n = Z.testbit (s TIM2_EGR) n || (n =? 0))
        /\ (forall n, 0 <= n < 32 ->
              Z.testbit (s' RCC_APB1ENR) n = Z.testbit (s RCC_APB1ENR) n || (n =? 0))
        /\ (forall r, r <> TIM2_ARR -> r <> TIM2_PSC -> r <> TIM2_CR1 -> r <> TIM2_CR2 ->
                      r <> TIM2_EGR -> r <> RCC_APB1ENR -> s' r = s r)).
Proof.
  split.
  - intros ->. reflexivity.
  - intros H. destruct (TIM2_Init_period frequency H) as (period & E & U).
    exists period. unfold TIM2_Init. rewrite E. eexists.
    split; [reflexivity|]. split; [reflexivity|].
    repeat apply conj.
    + read_tim. exact U.
    + reflexivity.
    + intros n Hn. read_tim. bits. each_bit n Hn; bit_done;
        destruct (Z.testbit (s TIM2_CR1) _); reflexivity.
    + intros n Hn. read_tim. bits. each_bit n Hn; bit_done.
    + intros n Hn. read_tim. bits. each_bit n Hn; bit_done.
    + intros n Hn. read_tim. bits. each_bit n Hn; bit_done.
    + intros r N1 N2 N3 N4 N5 N6. destruct r; try contradiction; reflexivity.
Qed.

(** X12: a retune, that is [TIM2_Init] called again, changes the
    auto-reload register and nothing else. *)
Theorem TIM2_Init_again_changes_only_ARR (f f' : Z) (s s1 s2 : soc) :
  TIM2_Init f s = Some s1 ->
  TIM2_Init f' s1 = Some s2 ->
  Firmware.TIM2_Init f' = Some (s2 TIM2_ARR)
  /\ (forall r, r <> TIM2_ARR -> s2 r = s1 r).
Proof.
  unfold TIM2_Init.
  destruct (Firmware.TIM2_Init f) as [p|] eqn:E; [|discriminate].
  destruct (Firmware.TIM2_Init f') as [p'|] eqn:E'; [|discriminate].
  intros H1 H2. injection H2 as <-. injection H1 as <-.
  assert (U : u32 p' = p').
  { destruct (Z.eq_dec f' 0) as [->|N]; [discriminate E'|].
    destruct (TIM2_Init_period f' N) as (q & Eq & Uq). congruence. }
  split.
  - read_tim. rewrite U. reflexivity.
  - intros r N. destruct r; try contradiction; try reflexivity; read_tim.
    + apply u32_eq. intros n Hn. bits. each_bit n Hn; bit_done.
    + apply u32_eq. intros n Hn. bits. each_bit n Hn; bit_done;
        destruct (Z.testbit (s TIM2_CR1) _); reflexivity.
    + apply u32_eq. intros n Hn. bits. each_bit n Hn; bit_done.
    + apply u32_eq. intros n Hn. bits. each_bit n Hn; bit_done.
Qed.


Lemma GPIO_Init_analog_pins_witness :
  pin_mode (GPIO_Init (fun _ => 43690) GPIOA_MODER) 3
  = pin_mode ((fun _ : register => 43690) GPIOA_MODER) 3.
Proof.
  apply (proj1 (proj2 (proj2 (GPIO_Init_analog_pins (fun _ => 43690))))); lia.
Defined.

Lemma ADC1_Init_configuration_witness :
  Z.testbit (ADC1_Init (fun _ => 4294967295) ADC1_SMPR2) 7
  = Z.testbit ((fun _ : register => 4294967295) ADC1_SMPR2) 7.
Proof.
  apply (proj1 (proj2 (proj2 (proj2 (proj2 (proj2
           (ADC1_Init_configuration (fun _ => 4294967295)))))))).
  lia.
Defined.

Lemma DAC1_Init_only_sets_bits_witness :
  field DAC_CR_TSEL1_Pos 3 (DAC1_Init (fun _ => 0) DAC_CR) = 2.
Proof.
  apply (proj1 (proj2 (DAC1_Init_only_sets_bits (fun _ => 0)))).
  split; reflexivity.
Defined.

Lemma TIM2_Init_registers_witness :
  exists period s',
    Firmware.TIM2_Init 440 = Some period
    /\ TIM2_Init 440 (fun _ => 0) = Some s'
    /\ s' TIM2_ARR = period.
Proof.
  destruct (proj2 (TIM2_Init_registers 440 (fun _ => 0)) ltac:(discriminate))
    as (period & s' & A & B & C & _).
  exists period, s'. repeat split; assumption.
Defined.

Lemma TIM2_Init_again_changes_only_ARR_witness :
  exists s1 s2,
    TIM2_Init 440 (fun _ => 0) = Some s1
    /\ TIM2_Init 1100 s1 = Some s2
    /\ s2 TIM2_CR1 = s1 TIM2_CR1.
Proof.
  eexists. eexists. split; [reflexivity|]. split; [reflexivity|].
  apply (proj2 (TIM2_Init_again_changes_only_ARR 440 1100 (fun _ => 0) _ _
                  eq_refl eq_refl)).
  discriminate.
Defined.


End BoardFacts.

(** ** The loop and the clocks of [main.ino] *)

Module SketchMore.

Import IEEE IEEEFacts Sketch SketchFacts.

Lemma u32_sub_shift a b k : u32 (u32 (a + k) - u32 (b + k)) = u32 (a - b).
Proof.
  unfold u32, wrap. rewrite <- Zminus_mod. f_equal. lia.
Qed.

Lemma retune_shift new cf now last k :
  retune_condition new cf (u32 (now + k)) (u32 (last + k))
  = retune_condition new cf now last.
Proof. unfold retune_condition. rewrite u32_sub_shift. reflexivity. Qed.

Lemma normal_ulps_below x E :
  normal x -> expo x <= E -> 0 < ulps x < 2 ^ (E + 1127).
Proof.
  intros N He. pose proof (normal_ulps_pos x N) as P.
  destruct (normal_inv x N) as (m & e & -> & D & R).
  pose proof (normal_mantissa m D) as B.
  cbn [expo] in He. cbn [ulps cond_Zopp] in *. split; [exact P|].
  replace (E + 1127) with (53 + (E + 1074)) by lia.
  rewrite (Z.pow_add_r 2 53 (E + 1074)) by lia. change (2 ^ 53) with 9007199254740992.
  assert (2 ^ (e + 1074) <= 2 ^ (E + 1074)) by (apply Z.pow_le_mono_r; lia).
  assert (0 < 2 ^ (e + 1074)) by (apply Z.pow_pos_nonneg; lia).
  nia.
Qed.

(** X19: the arithmetic of the phase accumulator neither overflows nor
    underflows: for a nonzero [uint32_t] frequency and elapsed time the
    increment is a positive normal number below 2^51, and its sum with a
    wrapped phase a positive normal number below 2^53. *)
Theorem tone_arithmetic_is_finite (f elapsed : Z) (p : double) :
  1 <= f < 2 ^ 32 -> 1 <= elapsed < 2 ^ 32 -> wrapped p ->
  normal (phase_increment f elapsed)
  /\ 0 < ulps (phase_increment f elapsed) < 2 ^ (51 + 1074)
  /\ normal (add p (phase_increment f elapsed))
  /\ 0 < ulps (add p (phase_increment f elapsed)) < 2 ^ (53 + 1074).
Proof.
  intros Hf He W.
  destruct (phase_increment_normal f elapsed Hf He) as [Ni Ei].
  destruct (advance_normal p _ W Ni Ei) as [Na Ea].
  split; [exact Ni|]. split; [apply (normal_ulps_below _ (-2)); assumption|].
  split; [exact Na|]. apply (normal_ulps_below _ 0); assumption.
Qed.

Section Tone.

Variable sin : double -> double.
Variable int16_of_unrepresentable : double -> Z.

Abbreviation sine_value := (Sketch.sine_value sin int16_of_unrepresentable).
Abbreviation generate_tone := (Sketch.generate_tone sin int16_of_unrepresentable).
Abbreviation tone_call := (Sketch.tone_call sin int16_of_unrepresentable).
Abbreviation tracks := (Sketch.tracks sin int16_of_unrepresentable).
Abbreviation loop := (Sketch.loop sin int16_of_unrepresentable).
Abbreviation loops := (Sketch.loops sin int16_of_unrepresentable).

Lemma generate_tone_writes fuel f t st o out :
  0 < f -> 0 < u32 (t - last_time st) ->
  generate_tone fuel f t st = Some (o, out) ->
  out = Some (duty (sine_value (phase o))) /\ last_time o = t.
Proof.
  intros Hf He. unfold Sketch.generate_tone.
  replace (u32 (t - last_time st) >? 0) with true
    by (symmetry; rewrite Z.gtb_ltb; apply Z.ltb_lt; exact He).
  replace (f >? 0) with true
    by (symmetry; rewrite Z.gtb_ltb; apply Z.ltb_lt; exact Hf).
  cbn [andb]. destruct (wrap_phase fuel _) as [ph|]; [|discriminate].
  intros H. injection H as <- <-. split; reflexivity.
Qed.

(** X17: after a call that wrote a sample, a call at the same reading of
    [micros()] writes nothing and leaves the statics as they are, whatever
    the frequency. *)
Theorem one_sample_per_timestamp (fuel : nat) (f t : Z) (st st' : oscillator) (d : Z) :
  generate_tone fuel f t st = Some (st', Some d) ->
  forall fuel2 f2, generate_tone fuel2 f2 t st' = Some (st', None).
Proof.
  intros H fuel2 f2.
  assert (L : last_time st' = t).
  { revert H. unfold Sketch.generate_tone.
    destruct ((u32 (t - last_time st) >? 0) && (f >? 0)).
    - destruct (wrap_phase fuel _); [|discriminate].
      intros H. injection H as <- _. reflexivity.
    - destruct (u32 (t - last_time st) =? 0); discriminate. }
  unfold Sketch.generate_tone. rewrite L, Z.sub_diag. cbn.
  destruct st' as [ph lt]. cbn in L. subst lt. reflexivity.
Qed.

(** X18: [generate_tone] sees the clock only through the difference to
    [last_time] modulo 2^32: shifting both by the same amount, across a
    roll-over of [micros()] or not, gives the same phase and the same
    sample; the same holds of the test of [loop] on [millis()]. *)
Theorem clock_shift_invariance (fuel : nat) (f t k : Z) (st : oscillator) :
  generate_tone fuel f (u32 (t + k))
    {| phase := phase st; last_time := u32 (last_time st + k) |}
  = match generate_tone fuel f t st with
    | Some (o, written) =>
        Some ({| phase := phase o; last_time := u32 (last_time o + k) |}, written)
    | None => None
    end
  /\ (forall new cf now last,
        retune_condition new cf (u32 (now + k)) (u32 (last + k))
        = retune_condition new cf now last).
Proof.
  split; [|intros; apply retune_shift].
  unfold Sketch.generate_tone. cbn [phase last_time].
  rewrite u32_sub_shift.
  destruct ((u32 (t - last_time st) >? 0) && (f >? 0)).
  - destruct (wrap_phase fuel _); reflexivity.
  - destruct (u32 (t - last_time st) =? 0); reflexivity.
Qed.

(** The pass of [loop] spelled out. *)
Lemma loop_step i s :
  200 <= current_frequency s <= 2000 ->
  wrapped (phase (osc (tone s))) ->
  let new := map_frequency (u16 (analog_read i)) in
  let due := retune_condition new (current_frequency s) (millis_at_test i) (last_update s) in
  let cf := if due then new else current_frequency s in
  exists fuel0 o out,
    (forall fuel, (fuel0 <= fuel)%nat ->
       generate_tone fuel cf (micros_at_tone i) (osc (tone s)) = Some (o, out))
    /\ wrapped (phase o)
    /\ 200 <= cf <= 2000
    /\ (forall fuel, (fuel0 <= fuel)%nat ->
          loop fuel i s
          = Some {| current_frequency := cf;
                    last_update := if due then u32 (millis_at_update i) else last_update s;
                    tone := {| osc := o;
                               audio_out := match out with
                                            | Some d => Some d
                                            | None => audio_out (tone s)
                                            end |} |}).
Proof.
  intros Hf W new due cf.
  pose proof (map_frequency_range_any (u16 (analog_read i))) as R. fold new in R.
  assert (C : 200 <= cf <= 2000) by (unfold cf; destruct due; lia).
  destruct (generate_tone_wrapped sin int16_of_unrepresentable cf (micros_at_tone i)
              (osc (tone s)) W) as (fuel0 & o & out & H & Wo); [unfold is_u32; lia|].
  exists fuel0, o, out. split; [exact H|]. split; [exact Wo|]. split; [exact C|].
  intros fuel Hfuel. unfold Sketch.loop. fold new. fold due.
  unfold Sketch.tone_call. unfold cf in H.
  destruct due; cbn [current_frequency last_update tone set_frequency frequency at_micros];
    rewrite (H fuel Hfuel); destruct out; reflexivity.
Qed.

(** X14: one pass of [loop] on a state of the running sketch returns, and
    sets the frequency to the mapped reading exactly when the condition
    holds, stamping [last_update]; otherwise both stay.  Either way the
    frequency ends within 5 Hz of the mapped reading, and equal to it when
    more than 100 ms have passed. *)
Theorem loop_updates_frequency (i : poll) (s : sketch) :
  200 <= current_frequency s <= 2000 ->
  wrapped (phase (osc (tone s))) ->
  let new := map_frequency (u16 (analog_read i)) in
  let due := retune_condition new (current_frequency s) (millis_at_test i) (last_update s) in
  exists fuel0 s',
    (forall fuel, (fuel0 <= fuel)%nat -> loop fuel i s = Some s')
    /\ current_frequency s' = (if due then new else current_frequency s)
    /\ last_update s' = (if due then u32 (millis_at_update i) else last_update s)
    /\ Z.abs (current_frequency s' - new) <= 5
    /\ (UPDATE_INTERVAL < u32 (millis_at_test i - last_update s) ->
        current_frequency s' = new).
Proof.
  intros Hf W new due.
  destruct (loop_step i s Hf W) as (fuel0 & o & out & _ & _ & _ & H).
  fold new in H. fold due in H.
  eexists fuel0, _. split; [exact H|]. cbn [current_frequency last_update].
  pose proof (map_frequency_range_any (u16 (analog_read i))) as R. fold new in R.
  pose proof (changed_significantly_spec (current_frequency s) new ltac:(lia) ltac:(lia)) as S.
  split; [reflexivity|]. split; [reflexivity|]. split.
  - destruct due eqn:D; [lia|].
    unfold due, retune_condition in D. apply orb_false_iff in D. destruct D as [D _].
    destruct (Z_le_gt_dec (Z.abs (current_frequency s - new)) 5) as [|G]; [assumption|].
    rewrite D in S. assert (F : false = true) by (apply S; lia). discriminate F.
  - intros T. replace due with true; [reflexivity|].
    symmetry. unfold due, retune_condition. apply orb_true_iff. right.
    rewrite Z.gtb_ltb. apply Z.ltb_lt. exact T.
Qed.

(** X15: in a pass of [loop] where the microsecond clock moved since the
    last sample, [generate_tone] writes a duty in 0..255, the sample of the
    new phase, and stamps [last_time]. *)
Theorem loop_writes_a_sample (i : poll) (s : sketch) :
  200 <= current_frequency s <= 2000 ->
  wrapped (phase (osc (tone s))) ->
  0 < u32 (micros_at_tone i - last_time (osc (tone s))) ->
  exists fuel0 s' d,
    (forall fuel, (fuel0 <= fuel)%nat -> loop fuel i s = Some s')
    /\ audio_out (tone s') = Some d
    /\ d = duty (sine_value (phase (osc (tone s'))))
    /\ 0 <= d <= 255
    /\ last_time (osc (tone s')) = micros_at_tone i
    /\ wrapped (phase (osc (tone s'))).
Proof.
  intros Hf W T.
  destruct (loop_step i s Hf W) as (fuel0 & o & out & G & Wo & C & H).
  pose proof (G fuel0 (le_n _)) as G0.
  apply generate_tone_writes in G0; [|lia|exact T]. destruct G0 as [-> L].
  eexists fuel0, _, _. split; [exact H|]. cbn [tone osc audio_out].
  split; [reflexivity|]. split; [reflexivity|].
  split; [apply duty_range, sine_value_range|]. split; assumption.
Qed.

Lemma loops_step polls : forall s,
  200 <= current_frequency s <= 2000 ->
  wrapped (phase (osc (tone s))) ->
  audio_out (tone s) = None \/ tracks (tone s) ->
  exists fuel0 s',
    (forall fuel, (fuel0 <= fuel)%nat -> loops fuel polls s = Some s')
    /\ 200 <= current_frequency s' <= 2000
    /\ wrapped (phase (osc (tone s')))
    /\ (audio_out (tone s') = None \/ tracks (tone s')).
Proof.
  induction polls as [|i rest IH]; intros s Hf W T.
  - exists O, s. split; [reflexivity|]. split; [exact Hf|]. split; [exact W | exact T].
  - destruct (loop_step i s Hf W) as (fuel1 & o & out & G & Wo & C & H).
    match type of H with
    | forall fuel, _ -> _ = Some ?x => set (s1 := x) in *
    end.
    assert (T1 : audio_out (tone s1) = None \/ tracks (tone s1)).
    { unfold s1. cbn [tone].
      eapply (tone_call_tracks sin int16_of_unrepresentable fuel1
                {| frequency := _; at_micros := micros_at_tone i |} (tone s)); [exact T|].
      unfold Sketch.tone_call. cbn [frequency at_micros].
      rewrite (G fuel1 (le_n _)). destruct out; reflexivity. }
    destruct (IH s1 C Wo T1) as (fuel2 & s2 & H2 & F2 & W2 & T2).
    exists (Nat.max fuel1 fuel2), s2.
    split; [|split; [exact F2|split; [exact W2 | exact T2]]].
    intros fuel Hfuel. cbn [Sketch.loops].
    rewrite (H fuel) by lia. apply H2. lia.
Qed.

(** X16: the sketch as a whole.  From [setup], any number of passes of
    [loop] return; the frequency stays between 200 and 2000, so
    [generate_tone] never runs with a zero frequency; the phase stays in
    the period; the pin was never written or holds the sample of the
    current phase. *)
Theorem sketch_never_idles (polls : list poll) :
  exists fuel0 s,
    (forall fuel, (fuel0 <= fuel)%nat -> loops fuel polls setup = Some s)
    /\ 200 <= current_frequency s <= 2000
    /\ in_period (phase (osc (tone s)))
    /\ wrapped (phase (osc (tone s)))
    /\ (audio_out (tone s) = None \/ tracks (tone s)).
Proof.
  destruct (loops_step polls setup) as (fuel0 & s & H & F & W & T).
  - cbn. lia.
  - split; [left; reflexivity | reflexivity].
  - left. reflexivity.
  - exists fuel0, s. split; [exact H|]. split; [exact F|].
    split; [apply wrapped_in_period, W|]. split; [exact W | exact T].
Qed.

End Tone.

Lemma tone_arithmetic_is_finite_witness : normal (phase_increment 440 1000).
Proof.
  apply (tone_arithmetic_is_finite 440 1000 zero).
  - split; [lia | reflexivity].
  - split; [lia | reflexivity].
  - split; [left; reflexivity | reflexivity].
Defined.

Lemma one_sample_per_timestamp_witness :
  Sketch.generate_tone (fun _ => zero) (fun _ => 0) 7 2000 1000
    {| phase := S754_finite false 6225329221785028 (-51); last_time := 1000 |}
  = Some ({| phase := S754_finite false 6225329221785028 (-51); last_time := 1000 |},
          None).
Proof.
  apply (one_sample_per_timestamp (fun _ => zero) (fun _ => 0) 5 440 1000 power_on
           {| phase := S754_finite false 6225329221785028 (-51); last_time := 1000 |}
           128).
  vm_compute. reflexivity.
Defined.

Lemma loop_updates_frequency_witness :
  exists fuel0 s',
    (forall fuel, (fuel0 <= fuel)%nat ->
       Sketch.loop (fun _ => zero) (fun _ => 0) fuel
         {| analog_read := 2048; millis_at_test := 10;
            millis_at_update := 10; micros_at_tone := 10000 |} setup = Some s')
    /\ current_frequency s' = 1100.
Proof.
  destruct (loop_updates_frequency (fun _ => zero) (fun _ => 0)
              {| analog_read := 2048; millis_at_test := 10;
                 millis_at_update := 10; micros_at_tone := 10000 |} setup)
    as (fuel0 & s' & H & E & _).
  - cbn. lia.
  - split; [left; reflexivity | reflexivity].
  - exists fuel0, s'. split; [exact H | exact E].
Defined.

Lemma loop_writes_a_sample_witness :
  exists fuel0 s' d,
    (forall fuel, (fuel0 <= fuel)%nat ->
       Sketch.loop (fun _ => zero) (fun _ => 0) fuel
         {| analog_read := 2048; millis_at_test := 10;
            millis_at_update := 10; micros_at_tone := 10000 |} setup = Some s')
    /\ audio_out (tone s') = Some d
    /\ 0 <= d <= 255.
Proof.
  destruct (loop_writes_a_sample (fun _ => zero) (fun _ => 0)
              {| analog_read := 2048; millis_at_test := 10;
                 millis_at_update := 10; micros_at_tone := 10000 |} setup)
    as (fuel0 & s' & d & H & A & _ & R & _).
  - cbn. lia.
  - split; [left; reflexivity | reflexivity].
  - reflexivity.
  - exists fuel0, s', d. repeat split; try assumption; lia.
Defined.

End SketchMore.
